(** * Graphic score analyzer: page store, feature extractor and scan engine

    A shallow embedding of [graph_score.py]: the [ScoreManager] class, the
    [analyze_image] function and the interactive loop of [main], followed by
    the properties the specification states about them.

    Conventions.
    - Python [int] is [Z]; a finite Python [float] is modelled by [Q], an
      exact rational: rounding is not modelled. The one non-finite float
      the program produces, the [nan] returned by [np.mean] on an empty
      list, is explicit in [Py.float].
    - A Python exception is a [Raise] result.
    - OpenCV and numpy primitives whose results depend on pixel data
      (decoding, interpolation, SIFT detection, drawing, standard
      deviation, square root) are fields of an environment record [Env].
    - Rendering ([imshow], [putText], [print]) has no effect on the control
      state and is left out, except for the outline of the scan window,
      which is logged together with the OSC messages sent. *)

From Stdlib Require Import ZArith QArith Lia Lqa String List.
From stdpp Require Import gmap strings list.
Import ListNotations.
Open Scope Z_scope.

(** ** Python values and exceptions *)

Module Py.

Inductive exn :=
| IndexError
| ZeroDivisionError
| TypeError
| CvError.

Inductive result (A : Type) :=
| Ok (a : A)
| Raise (e : exn).
Arguments Ok {A} a.
Arguments Raise {A} e.

Definition bind {A B} (r : result A) (k : A -> result B) : result B :=
  match r with
  | Ok a => k a
  | Raise e => Raise e
  end.

(** [l[i]] on a Python list: a negative index counts from the end, any
    index outside [-len, len) raises [IndexError]. *)
Definition getitem {A} (l : list A) (i : Z) : result A :=
  let n := Z.of_nat (length l) in
  let j := if i <? 0 then i + n else i in
  if (0 <=? j) && (j <? n) then
    match l !! Z.to_nat j with
    | Some x => Ok x
    | None => Raise IndexError
    end
  else Raise IndexError.

(** A float: finite, or [nan]. *)
Inductive float :=
| NaN
| Fin (q : Q).

(** A number that is either an [int] or a [float]. *)
Inductive num :=
| Int (z : Z)
| Float (x : float).

(** The value of a number, when it has one. *)
Definition num_val (x : num) : option Q :=
  match x with
  | Int z => Some (inject_Z z)
  | Float (Fin q) => Some q
  | Float NaN => None
  end.

(** Truth value of a [str]: the empty string is false. *)
Definition truthy (s : string) : bool :=
  match s with
  | EmptyString => false
  | _ => true
  end.

End Py.
Import Py.

Notation "'let?' x := r 'in' k" := (Py.bind r (fun x => k))
  (at level 10, x name, r at level 100, k at level 200).

(** ** Images *)

Definition Pixel : Type := Z * Z * Z.

(** An array of shape [(shape0, shape1, 3)]: [shape0] rows, [shape1] columns. *)
Record Image := mkImage {
  shape0 : Z;
  shape1 : Z;
  data : Z -> Z -> Pixel
}.

(** [img[:, a:b]] for [0 <= a]: the bounds are clipped to the width. *)
Definition col_slice (img : Image) (a b : Z) : Image :=
  let lo := Z.min a (shape1 img) in
  let hi := Z.min b (shape1 img) in
  {| shape0 := shape0 img;
     shape1 := Z.max 0 (hi - lo);
     data := fun r c => data img r (c + lo) |}.

(** A SIFT keypoint: its position [pt] and its characteristic [size]. *)
Record KeyPoint := mkKeyPoint {
  pt : Q * Q;
  size : Q
}.

(** The primitives of OpenCV and numpy the program relies on. *)
Record Env := mkEnv {
  (** [cv2.imread]: [None] when the file cannot be read *)
  imread : string -> option Image;
  (** pixel values of [cv2.resize img (w, h)] *)
  resize_data : Image -> Z -> Z -> (Z -> Z -> Pixel);
  (** [sift.detectAndCompute] on the grayscale image: the keypoints *)
  detectAndCompute : Image -> list KeyPoint;
  (** [cv2.drawKeypoints] of one keypoint, in place *)
  drawKeypoints : Image -> KeyPoint -> bool -> Image;
  (** [cv2.bitwise_not] *)
  bitwise_not : Image -> Image;
  (** [gray.std()] *)
  gray_std : Image -> Q;
  (** [np.sqrt] *)
  np_sqrt : Q -> Q
}.

(** [cv2.resize img (w, h)]: an array of shape [(h, w, 3)]. *)
Definition resize (E : Env) (img : Image) (w h : Z) : Image :=
  {| shape0 := h; shape1 := w; data := resize_data E img w h |}.

(** ** The page store: class [ScoreManager] *)

(** An entry of [analyzed_pages]. *)
Record AnalysisData := mkAnalysisData {
  a_keypoints_image : Image;
  a_contrast : Q;
  a_object_count : Z;
  a_proximity : float;
  a_original_image : Image
}.

Record ScoreManager := mkScoreManager {
  scores : list (string * Q);
  current_index : Z;
  analyzed_pages : gmap Z AnalysisData;
  auto_scanning : bool
}.

Definition set_scores (l : list (string * Q)) (sm : ScoreManager) :=
  {| scores := l; current_index := current_index sm;
     analyzed_pages := analyzed_pages sm; auto_scanning := auto_scanning sm |}.

Definition set_current_index (i : Z) (sm : ScoreManager) :=
  {| scores := scores sm; current_index := i;
     analyzed_pages := analyzed_pages sm; auto_scanning := auto_scanning sm |}.

Definition set_analyzed_pages (m : gmap Z AnalysisData) (sm : ScoreManager) :=
  {| scores := scores sm; current_index := current_index sm;
     analyzed_pages := m; auto_scanning := auto_scanning sm |}.

(** [len(self.scores)] *)
Definition len_scores (sm : ScoreManager) : Z := Z.of_nat (length (scores sm)).

(** [__init__] *)
Definition init : ScoreManager :=
  {| scores := []; current_index := 0; analyzed_pages := ∅;
     auto_scanning := false |}.

(** [add_score]: [self.scores.append((path, float(duration)))] *)
Definition add_score (path : string) (duration : Q) (sm : ScoreManager)
  : ScoreManager :=
  set_scores (scores sm ++ [(path, duration)]) sm.

(** [remove_score]: inside the range, [pop(index)] and drop the cached
    analysis stored under that key; the cursor is left as it is. *)
Definition remove_score (index : Z) (sm : ScoreManager) : ScoreManager :=
  if (0 <=? index) && (index <? len_scores sm) then
    set_analyzed_pages (delete index (analyzed_pages sm))
      (set_scores (delete (Z.to_nat index) (scores sm)) sm)
  else sm.

(** [get_current_score]: [None] stands for the pair [(None, None)]. *)
Definition get_current_score (sm : ScoreManager)
  : result (option (string * Q)) :=
  match scores sm with
  | [] => Ok None
  | _ => let? p := getitem (scores sm) (current_index sm) in Ok (Some p)
  end.

(** [get_total_duration]: [sum] starts from [0] and adds from the left. *)
Definition get_total_duration (sm : ScoreManager) : Q :=
  fold_left (fun acc p => (acc + snd p)%Q) (scores sm) 0%Q.

Definition store_analysis (index : Z) (d : AnalysisData) (sm : ScoreManager) :=
  set_analyzed_pages (<[index := d]> (analyzed_pages sm)) sm.

Definition get_analysis (index : Z) (sm : ScoreManager) : option AnalysisData :=
  analyzed_pages sm !! index.

Definition has_next_score (sm : ScoreManager) : bool :=
  (1 <? len_scores sm) && (current_index sm <? len_scores sm - 1).

(** [next_score] and [previous_score] return the store after the call and
    the value returned. Python's [%] with a positive modulus is [Z.modulo]. *)
Definition next_score (sm : ScoreManager)
  : ScoreManager * result (option (string * Q)) :=
  match scores sm with
  | [] => (sm, Ok None)
  | _ =>
    let sm' := set_current_index ((current_index sm + 1) `mod` len_scores sm) sm in
    (sm', get_current_score sm')
  end.

Definition previous_score (sm : ScoreManager)
  : ScoreManager * result (option (string * Q)) :=
  match scores sm with
  | [] => (sm, Ok None)
  | _ =>
    let sm' := set_current_index ((current_index sm - 1) `mod` len_scores sm) sm in
    (sm', get_current_score sm')
  end.

(** ** The feature extractor: [analyze_image] *)

(** [min(l)] and [max(l)] on a list with first element [x]: the first
    extremal element is kept. *)
Definition py_min (x : Q) (l : list Q) : Q :=
  fold_left (fun m y => if Qle_bool m y then m else y) l x.

Definition py_max (x : Q) (l : list Q) : Q :=
  fold_left (fun m y => if Qle_bool y m then m else y) l x.

Definition q_sum (l : list Q) : Q := fold_left Qplus l 0%Q.

(** [np.mean(l)]: [nan] (and a warning, no exception) on the empty list. *)
Definition np_mean (l : list Q) : float :=
  match l with
  | [] => NaN
  | _ => Fin (q_sum l / inject_Z (Z.of_nat (length l)))
  end.

(** The tuple [analyze_image] returns. *)
Record Analysis := mkAnalysis {
  contrast : Q;
  object_count : Z;
  sizes : list Q;
  proximity : float;
  min_size : num;
  avg_size : num;
  max_size : num;
  positions : list (Q * Q)
}.

(** The drawing loop: keypoint [i] is drawn in green when [i] is even. *)
Fixpoint draw_all (E : Env) (i : nat) (kps : list KeyPoint) (display : Image)
  : Image :=
  match kps with
  | [] => display
  | kp :: rest => draw_all E (S i) rest (drawKeypoints E display kp (Nat.even i))
  end.

(** Distance of a keypoint from the centre [(cx, cy)]. *)
Definition distance (E : Env) (cx cy : Z) (kp : KeyPoint) : Q :=
  let dx := (fst (pt kp) - inject_Z cx)%Q in
  let dy := (snd (pt kp) - inject_Z cy)%Q in
  np_sqrt E (dx * dx + dy * dy)%Q.

(** [analyze_image image display_image]: the statistics, and
    [display_image] after the keypoints were drawn on it. *)
Definition analyze_image (E : Env) (image display_image : Image)
  : Analysis * Image :=
  let keypoints := detectAndCompute E image in
  let display := draw_all E 0 keypoints display_image in
  let szs := map size keypoints in
  let center_x := shape1 image / 2 in
  let center_y := shape0 image / 2 in
  ({| contrast := gray_std E image;
      object_count := Z.of_nat (length keypoints);
      sizes := szs;
      proximity := np_mean (map (distance E center_x center_y) keypoints);
      min_size := match szs with [] => Int 0 | x :: l => Float (Fin (py_min x l)) end;
      avg_size := match szs with [] => Int 0 | _ => Float (np_mean szs) end;
      max_size := match szs with [] => Int 0 | x :: l => Float (Fin (py_max x l)) end;
      positions :=
        map (fun kp => (fst (pt kp) / inject_Z (shape1 image),
                        snd (pt kp) / inject_Z (shape0 image))%Q) keypoints |},
   display).

(** The dictionary stored for a page. *)
Definition analysis_data (r : Analysis) (keypoints_image original : Image)
  : AnalysisData :=
  {| a_keypoints_image := keypoints_image;
     a_contrast := contrast r;
     a_object_count := object_count r;
     a_proximity := proximity r;
     a_original_image := original |}.

(** [analyze_all_pages]: pages are analysed in order; [cv2.resize] raises on
    an image that could not be read, which leaves the loop. *)
Fixpoint analyze_pages_from (E : Env) (i : Z) (l : list (string * Q))
  (sm : ScoreManager) : ScoreManager * result unit :=
  match l with
  | [] => (sm, Ok tt)
  | (path, _) :: rest =>
    match imread E path with
    | None => (sm, Raise CvError)
    | Some raw =>
      let temp_image := resize E raw 1424 848 in
      let '(r, temp_display) := analyze_image E temp_image temp_image in
      analyze_pages_from E (i + 1) rest
        (store_analysis i (analysis_data r temp_display temp_image) sm)
    end
  end.

Definition analyze_all_pages (E : Env) (sm : ScoreManager)
  : ScoreManager * result unit :=
  analyze_pages_from E 0 (scores sm) sm.

(** ** The session controller and scan engine: [main] *)

(** What the program sends or draws, in order. *)
Inductive event :=
| SendMessage (address : string) (value : num)
| Rectangle (start_x end_x : Z).

(** Where [main] stands in its loops.
    - [Display]: at [cv2.waitKey(1)] of the [while True] loop;
    - [ScanSetup]: at the head of [while scanning:];
    - [ScanLoop]: at the head of the inner [while];
    - [ScanEnd]: after the inner [while], at the check for a next page. *)
Inductive Loc :=
| Display
| ScanSetup
| ScanLoop
| ScanEnd.

(** The locals of [main] about the page shown. [keypoints_image] is set on
    every path of the prologue, so that it is never [None] in the loop. *)
Record Page := mkPage {
  image : Image;
  keypoints_image : Image;
  duration : Q;
  current_page : Z;
  total_pages : Z;
  total_duration : Q;
  page_contrast : Q;
  page_object_count : Z;
  page_proximity : float
}.

(** The locals of [main] about the scan. [num_steps] and [step_duration]
    are unbound until the first scan; they are [0] here until then. *)
Record Scan := mkScan {
  reverse_scan : bool;
  current_position : Z;
  scanning : bool;
  num_steps : Z;
  step_duration : Q
}.

Record Frame := mkFrame {
  page : Page;
  scan : Scan;
  score_manager : option ScoreManager;
  auto_play : bool;
  pc : Loc;
  out : list event
}.

(** A call of [main]: running, returned, or left by an exception. *)
Inductive State :=
| Running (f : Frame)
| Returned (sm : option ScoreManager) (log : list event)
| Raised (e : exn) (sm : option ScoreManager) (log : list event).

Definition scan_width : Z := 60.
Definition scan_height : Z := 848.

Definition key_a : Z := 97.
Definition key_b : Z := 98.
Definition key_f : Z := 102.
Definition key_n : Z := 110.
Definition key_p : Z := 112.
Definition key_r : Z := 114.
Definition key_esc : Z := 27.

Definition set_pc (l : Loc) (f : Frame) : Frame :=
  {| page := page f; scan := scan f; score_manager := score_manager f;
     auto_play := auto_play f; pc := l; out := out f |}.

Definition set_scan (s : Scan) (f : Frame) : Frame :=
  {| page := page f; scan := s; score_manager := score_manager f;
     auto_play := auto_play f; pc := pc f; out := out f |}.

Definition set_page (p : Page) (f : Frame) : Frame :=
  {| page := p; scan := scan f; score_manager := score_manager f;
     auto_play := auto_play f; pc := pc f; out := out f |}.

Definition set_score_manager (sm : option ScoreManager) (f : Frame) : Frame :=
  {| page := page f; scan := scan f; score_manager := sm;
     auto_play := auto_play f; pc := pc f; out := out f |}.

Definition emit (es : list event) (f : Frame) : Frame :=
  {| page := page f; scan := scan f; score_manager := score_manager f;
     auto_play := auto_play f; pc := pc f; out := out f ++ es |}.

Definition set_scanning (b : bool) (f : Frame) : Frame :=
  set_scan {| reverse_scan := reverse_scan (scan f);
              current_position := current_position (scan f);
              scanning := b;
              num_steps := num_steps (scan f);
              step_duration := step_duration (scan f) |} f.

Definition set_duration (d : Q) (p : Page) : Page :=
  {| image := image p; keypoints_image := keypoints_image p; duration := d;
     current_page := current_page p; total_pages := total_pages p;
     total_duration := total_duration p; page_contrast := page_contrast p;
     page_object_count := page_object_count p;
     page_proximity := page_proximity p |}.

(** The locals a cached analysis overwrites (lines 472-477). *)
Definition load_analysis (a : AnalysisData) (p : Page) : Page :=
  {| image := a_original_image a; keypoints_image := a_keypoints_image a;
     duration := duration p; current_page := current_page p;
     total_pages := total_pages p; total_duration := total_duration p;
     page_contrast := a_contrast a; page_object_count := a_object_count a;
     page_proximity := a_proximity a |}.

(** The locals a fresh analysis of [image] overwrites (lines 490-492). *)
Definition fresh_analysis (r : Analysis) (display : Image) (p : Page) : Page :=
  {| image := image p; keypoints_image := display;
     duration := duration p; current_page := current_page p;
     total_pages := total_pages p; total_duration := total_duration p;
     page_contrast := contrast r; page_object_count := object_count r;
     page_proximity := proximity r |}.

(** The prologue of [main], up to the [while True] loop. *)
Definition enter_main (E : Env) (image_path : string) (d : Q)
  (sm : option ScoreManager) (auto : bool) (log : list event) : State :=
  match imread E image_path with
  | None => Returned sm log
  | Some raw =>
    let img := resize E raw 1424 848 in
    let scan0 := {| reverse_scan := false; current_position := 0;
                    scanning := false; num_steps := 0; step_duration := 0 |} in
    match sm with
    | Some m =>
      let cur := current_index m in
      match get_analysis cur m with
      | Some a =>
        Running
          {| page := {| image := a_original_image a;
                        keypoints_image := a_keypoints_image a;
                        duration := d; current_page := cur;
                        total_pages := len_scores m;
                        total_duration := get_total_duration m;
                        page_contrast := a_contrast a;
                        page_object_count := a_object_count a;
                        page_proximity := a_proximity a |};
             scan := scan0; score_manager := Some m; auto_play := auto;
             pc := Display; out := log |}
      | None =>
        let '(r, display) := analyze_image E img img in
        Running
          {| page := {| image := img; keypoints_image := display;
                        duration := d; current_page := cur;
                        total_pages := len_scores m;
                        total_duration := get_total_duration m;
                        page_contrast := contrast r;
                        page_object_count := object_count r;
                        page_proximity := proximity r |};
             scan := scan0;
             score_manager :=
               Some (store_analysis cur (analysis_data r display img) m);
             auto_play := auto; pc := Display; out := log |}
      end
    | None =>
      let '(r, display) := analyze_image E img img in
      Running
        {| page := {| image := img; keypoints_image := display;
                      duration := d; current_page := 0; total_pages := 1;
                      total_duration := d;
                      page_contrast := contrast r;
                      page_object_count := object_count r;
                      page_proximity := proximity r |};
           scan := scan0; score_manager := None; auto_play := auto;
           pc := Display; out := log |}
    end
  end.

(** [path, duration = score_manager.next_score()] (or [previous_score])
    followed by [if path: return main(path, duration, ...)]. When the page
    has an empty path the loop at [stay] goes on with the new [duration];
    when the store was empty [duration] is [None], and its next use (the
    format of the info box, or the division by [num_steps]) raises
    [TypeError]. *)
Definition goto_page (E : Env)
  (r : ScoreManager * result (option (string * Q))) (stay : Loc) (f : Frame)
  : State :=
  let '(sm', res) := r in
  match res with
  | Raise e => Raised e (Some sm') (out f)
  | Ok None => Raised TypeError (Some sm') (out f)
  | Ok (Some (path, d)) =>
    if truthy path then enter_main E path d (Some sm') (auto_play f) (out f)
    else Running (set_pc stay (set_page (set_duration d (page f))
                                 (set_score_manager (Some sm') f)))
  end.

(** Key ['a'] in the display loop (lines 465-498). *)
Definition static_analysis (E : Env) (f : Frame) : State :=
  match score_manager f with
  | Some sm =>
    match analyze_all_pages E sm with
    | (sm', Raise e) => Raised e (Some sm') (out f)
    | (sm', Ok _) =>
      let f' := set_score_manager (Some sm') f in
      match get_analysis (current_page (page f)) sm' with
      | Some a =>
        Running
          (emit [SendMessage "/image/object_count" (Int (a_object_count a))]
             (set_page (load_analysis a (page f)) f'))
      | None => Running f'
      end
    end
  | None =>
    let '(r, display) := analyze_image E (image (page f)) (image (page f)) in
    Running
      (emit [SendMessage "/image/object_count" (Int (object_count r))]
         (set_page (fresh_analysis r display (page f)) f))
  end.

(** The display loop after [key = cv2.waitKey(1) & 0xFF] (lines 465-590). *)
Definition display_key (E : Env) (key : Z) (f : Frame) : State :=
  if key =? key_a then static_analysis E f
  else if key =? key_n then
    match score_manager f with
    | Some sm => goto_page E (next_score sm) Display f
    | None => Running f
    end
  else if key =? key_p then
    match score_manager f with
    | Some sm => goto_page E (previous_score sm) Display f
    | None => Running f
    end
  else if key =? key_b then
    Running (set_pc ScanSetup (set_scanning true f))
  else if key =? key_esc then Returned (score_manager f) (out f)
  else Running f.

(** The head of [while scanning:] (lines 524-531). Dividing a float by the
    int [0] raises [ZeroDivisionError]. *)
Definition scan_setup (f : Frame) : State :=
  if scanning (scan f) then
    let n := (shape1 (image (page f)) - scan_width) + 1 in
    if n =? 0 then Raised ZeroDivisionError (score_manager f) (out f)
    else
      Running
        (set_pc ScanLoop
           (set_scan {| reverse_scan := reverse_scan (scan f);
                        current_position :=
                          if reverse_scan (scan f) then n - 1 else 0;
                        scanning := true;
                        num_steps := n;
                        step_duration := (duration (page f) / inject_Z n)%Q |}
              f))
  else Running (set_pc Display f).

(** The condition of the inner loop (line 533). *)
Definition in_scan (f : Frame) : bool :=
  scanning (scan f)
  && ((0 <=? current_position (scan f))
      && (current_position (scan f) <? num_steps (scan f))).

(** One turn of the inner loop after its [waitKey] (lines 536-578). *)
Definition scan_key (E : Env) (key : Z) (f : Frame) : State :=
  let s := scan f in
  if key =? key_esc then
    Running (set_pc ScanEnd (set_scanning false f))
  else
    let rev :=
      if key =? key_r then true
      else if key =? key_f then false
      else reverse_scan s in
    let start_x := current_position s in
    let end_x := start_x + scan_width in
    let scan_area :=
      bitwise_not E (col_slice (keypoints_image (page f)) start_x end_x) in
    let '(r, _) :=
      analyze_image E (col_slice (image (page f)) start_x end_x) scan_area in
    Running
      (emit [Rectangle start_x end_x;
             SendMessage "/image/scan_object_count" (Int (object_count r));
             SendMessage "/image/scan_min_size" (min_size r);
             SendMessage "/image/scan_avg_size" (avg_size r);
             SendMessage "/image/scan_max_size" (max_size r)]
         (set_scan {| reverse_scan := rev;
                      current_position :=
                        if rev then start_x - 1 else start_x + 1;
                      scanning := scanning s;
                      num_steps := num_steps s;
                      step_duration := step_duration s |} f)).

(** After the inner loop (lines 580-587). *)
Definition scan_end (E : Env) (f : Frame) : State :=
  match score_manager f with
  | Some sm =>
    if scanning (scan f) && has_next_score sm then
      goto_page E (next_score sm) ScanSetup f
    else Running (set_pc ScanSetup (set_scanning false f))
  | None => Running (set_pc ScanSetup (set_scanning false f))
  end.

(** [main] reads a key at [Display], and at [ScanLoop] when the condition of
    the inner loop holds. *)
Definition awaits_key (f : Frame) : bool :=
  match pc f with
  | Display => true
  | ScanLoop => in_scan f
  | _ => false
  end.

(** A transition that reads the value [raw] returned by [cv2.waitKey]. *)
Definition on_key (E : Env) (raw : Z) (f : Frame) : State :=
  let key := Z.land raw 255 in
  match pc f with
  | Display => display_key E key f
  | ScanLoop => scan_key E key f
  | _ => Running f
  end.

(** A transition that reads no key. *)
Definition internal (E : Env) (f : Frame) : State :=
  match pc f with
  | ScanSetup => scan_setup f
  | ScanLoop => Running (set_pc ScanEnd f)
  | ScanEnd => scan_end E f
  | Display => Running f
  end.

(** One transition of [main], on the keys still to come. With no key left
    [main] waits where it reads one. *)
Definition step (E : Env) (s : State) (keys : list Z) : State * list Z :=
  match s with
  | Running f =>
    if awaits_key f then
      match keys with
      | [] => (s, [])
      | raw :: rest => (on_key E raw f, rest)
      end
    else (internal E f, keys)
  | _ => (s, keys)
  end.

Fixpoint run (E : Env) (fuel : nat) (s : State) (keys : list Z)
  : State * list Z :=
  match fuel with
  | O => (s, keys)
  | S n => let '(s', rest) := step E s keys in run E n s' rest
  end.

(** ** Notions used in the statements *)

(** The cursor points at a page whenever there is one. *)
Definition cursor_ok (sm : ScoreManager) : Prop :=
  scores sm <> [] -> 0 <= current_index sm < len_scores sm.

(** A cursor that is in range, and at [0] on the empty store: what [add],
    [next] and [previous] maintain from the initial store. *)
Definition cursor_inv (sm : ScoreManager) : Prop :=
  (scores sm = [] /\ current_index sm = 0)
  \/ 0 <= current_index sm < len_scores sm.

(** The operations of the page store, as a caller issues them. *)
Inductive op :=
| Add (path : string) (duration : Q)
| Remove (index : Z)
| Next
| Previous.

Definition apply_op (sm : ScoreManager) (o : op) : ScoreManager :=
  match o with
  | Add path d => add_score path d sm
  | Remove i => remove_score i sm
  | Next => fst (next_score sm)
  | Previous => fst (previous_score sm)
  end.

Definition apply_ops (ops : list op) (sm : ScoreManager) : ScoreManager :=
  fold_left apply_op ops sm.

(** [n] calls of [next_score]. *)
Definition next_n (n : nat) (sm : ScoreManager) : ScoreManager :=
  Nat.iter n (fun s => fst (next_score s)) sm.

(** The log of a state, and the offsets of the scan windows drawn in a log. *)
Definition log_of (s : State) : list event :=
  match s with
  | Running f => out f
  | Returned _ l => l
  | Raised _ _ l => l
  end.

Definition offsets (l : list event) : list Z :=
  flat_map (fun ev => match ev with Rectangle x _ => [x] | _ => [] end) l.

(** Every cached original image has the working width. *)
Definition fixed_size (sm : ScoreManager) : Prop :=
  forall i a, analyzed_pages sm !! i = Some a ->
              shape1 (a_original_image a) = 1424.

(** The page shown and the cached pages have the working width. *)
Definition frame_ok (f : Frame) : Prop :=
  shape1 (image (page f)) = 1424
  /\ (forall sm, score_manager f = Some sm -> fixed_size sm).

(** During a scan, [num_steps] is the count computed from the page width. *)
Definition steps_match (f : Frame) : Prop :=
  pc f = ScanLoop ->
  num_steps (scan f) = shape1 (image (page f)) - scan_width + 1.

(** A property of the frame of a state that is running. *)
Definition state_sat (P : Frame -> Prop) (s : State) : Prop :=
  match s with
  | Running f => P f
  | _ => True
  end.

(** The state is not the outcome of a division by zero, and its frame, if
    it is running, has the working width. *)
Definition no_zero_division (s : State) : Prop :=
  match s with
  | Running f => frame_ok f
  | Raised e _ _ => e <> ZeroDivisionError
  | Returned _ _ => True
  end.

(** [main] stands in its display loop, not scanning, and draws no scan
    window however long it runs on keys other than ['b']. *)
Definition idle (E : Env) (f : Frame) : Prop :=
  pc f = Display /\ scanning (scan f) = false
  /\ forall fuel ks,
       Forall (fun raw => Z.land raw 255 <> key_b) ks ->
       offsets (log_of (fst (run E fuel (Running f) ks))) = offsets (out f).

(** The addresses [main] sends to. *)
Definition taxonomy : list string :=
  [ "/image/object_count"; "/image/scan_object_count";
    "/image/scan_min_size"; "/image/scan_avg_size";
    "/image/scan_max_size" ]%string.

(** A message goes to one of these addresses; a scan window is
    [scan_width] wide. *)
Definition event_ok (ev : event) : Prop :=
  match ev with
  | SendMessage a _ => In a taxonomy
  | Rectangle x e => e = x + scan_width
  end.

(** The score manager a state holds. *)
Definition store_of (s : State) : option ScoreManager :=
  match s with
  | Running f => score_manager f
  | Returned sm _ => sm
  | Raised _ sm _ => sm
  end.

(** The file of a page can be read. *)
Definition readable (E : Env) (p : string * Q) : Prop :=
  imread E (fst p) <> None.

(** What [analyze_all_pages] stores for a page whose file decodes to [raw]. *)
Definition page_analysis (E : Env) (raw : Image) : AnalysisData :=
  let temp_image := resize E raw 1424 848 in
  let '(r, temp_display) := analyze_image E temp_image temp_image in
  analysis_data r temp_display temp_image.

(** ** Sample data

    A store of three pages, and an environment in which every file but
    ["missing.png"] can be read and SIFT finds two keypoints in a window of
    the scan and none in a whole page. *)

Definition three_pages : ScoreManager :=
  add_score "c.png" 30 (add_score "b.png" 20 (add_score "a.png" 10 init)).

Definition two_pages : ScoreManager :=
  add_score "b.png" 20 (add_score "a.png" 10 init).

Definition blank (h w : Z) : Image :=
  {| shape0 := h; shape1 := w; data := fun _ _ => (0, 0, 0) |}.

Definition sample_keypoints : list KeyPoint :=
  [ {| pt := (3 # 1, 4 # 1)%Q; size := (2 # 1)%Q |};
    {| pt := (10 # 1, 4 # 1)%Q; size := (5 # 1)%Q |} ].

Definition sample_env : Env :=
  {| imread := fun p =>
       if String.eqb p "missing.png" then None else Some (blank 10 10);
     resize_data := fun _ _ _ _ _ => (0, 0, 0);
     detectAndCompute := fun img =>
       if shape1 img =? scan_width then sample_keypoints else [];
     drawKeypoints := fun img _ _ => img;
     bitwise_not := fun img => img;
     gray_std := fun _ => 0%Q;
     np_sqrt := fun q => q |}.

(** The frame the prologue of [main] builds without a score manager, for a
    file that decodes to [raw]: the raster is resized before anything else. *)
Definition display_frame (E : Env) (raw : Image) (d : Q) : Frame :=
  let img := resize E raw 1424 848 in
  let '(r, display) := analyze_image E img img in
  {| page := {| image := img; keypoints_image := display;
                duration := d; current_page := 0; total_pages := 1;
                total_duration := d;
                page_contrast := contrast r;
                page_object_count := object_count r;
                page_proximity := proximity r |};
     scan := {| reverse_scan := false; current_position := 0;
                scanning := false; num_steps := 0; step_duration := 0 |};
     score_manager := None; auto_play := false;
     pc := Display; out := [] |}.

(** The frame of a state, [f0] when it is not running. *)
Definition frame_of (f0 : Frame) (s : State) : Frame :=
  match s with
  | Running f => f
  | _ => f0
  end.

(** [main] on the first of two pages, and the frame it starts with. *)
Definition sample_start : State :=
  enter_main sample_env "a.png" 10 (Some two_pages) false [].

Definition sample_frame : Frame :=
  frame_of (display_frame sample_env (blank 848 1424) 10) sample_start.

(** ** The page store *)

Lemma len_scores_pos sm : scores sm <> [] -> 0 < len_scores sm.
Proof.
  unfold len_scores. destruct (scores sm); [congruence | simpl; lia].
Qed.

Lemma getitem_in_range {A} (l : list A) (i : Z) :
  0 <= i < Z.of_nat (length l) -> exists x, getitem l i = Ok x /\ l !! Z.to_nat i = Some x.
Proof.
  intros Hi. unfold getitem.
  replace (i <? 0) with false by lia.
  replace ((0 <=? i) && (i <? Z.of_nat (length l))) with true by lia.
  destruct (l !! Z.to_nat i) as [x|] eqn:Hx; [eauto |].
  apply lookup_ge_None in Hx. lia.
Qed.

Lemma next_score_scores sm : scores (fst (next_score sm)) = scores sm.
Proof. unfold next_score. destruct (scores sm) eqn:H; simpl; auto. Qed.

Lemma previous_score_scores sm : scores (fst (previous_score sm)) = scores sm.
Proof. unfold previous_score. destruct (scores sm) eqn:H; simpl; auto. Qed.

Lemma next_score_index sm :
  scores sm <> [] ->
  current_index (fst (next_score sm)) = (current_index sm + 1) `mod` len_scores sm.
Proof. unfold next_score. destruct (scores sm); [congruence | reflexivity]. Qed.

Lemma previous_score_index sm :
  scores sm <> [] ->
  current_index (fst (previous_score sm))
  = (current_index sm - 1) `mod` len_scores sm.
Proof. unfold previous_score. destruct (scores sm); [congruence | reflexivity]. Qed.

Lemma next_score_empty sm : scores sm = [] -> next_score sm = (sm, Ok None).
Proof. unfold next_score. intros ->. reflexivity. Qed.

Lemma previous_score_empty sm :
  scores sm = [] -> previous_score sm = (sm, Ok None).
Proof. unfold previous_score. intros ->. reflexivity. Qed.

(** The value returned by [next_score] on a non-empty store is the page
    under the new cursor. *)
Lemma next_score_returns sm :
  scores sm <> [] ->
  exists p, snd (next_score sm) = Ok (Some p)
            /\ scores sm !! Z.to_nat ((current_index sm + 1) `mod` len_scores sm)
               = Some p.
Proof.
  intros Hne. pose proof (len_scores_pos sm Hne) as Hpos.
  unfold next_score. destruct (scores sm) as [|p0 l] eqn:Hs; [congruence |].
  cbn [snd]. unfold get_current_score. cbn [scores set_current_index current_index].
  rewrite Hs.
  destruct (getitem_in_range (p0 :: l) ((current_index sm + 1) `mod` len_scores sm))
    as (x & Hx & Hl).
  { unfold len_scores in *. rewrite Hs in *. apply Z.mod_pos_bound. lia. }
  exists x. rewrite Hx. auto.
Qed.

Lemma next_n_scores n sm : scores (next_n n sm) = scores sm.
Proof.
  induction n as [|n IH]; [reflexivity |].
  change (next_n (S n) sm) with (fst (next_score (next_n n sm))).
  rewrite next_score_scores. exact IH.
Qed.

Lemma next_n_index n sm :
  scores sm <> [] ->
  current_index (next_n (S n) sm)
  = (current_index sm + Z.of_nat (S n)) `mod` len_scores sm.
Proof.
  intros Hne. induction n as [|n IH].
  - change (next_n 1 sm) with (fst (next_score sm)).
    rewrite next_score_index by assumption. reflexivity.
  - change (next_n (S (S n)) sm) with (fst (next_score (next_n (S n) sm))).
    rewrite next_score_index by (rewrite next_n_scores; assumption).
    rewrite IH. unfold len_scores. rewrite next_n_scores.
    rewrite Zplus_mod_idemp_l. f_equal. lia.
Qed.

Lemma next_n_set_index n sm :
  next_n n sm = set_current_index (current_index (next_n n sm)) sm.
Proof.
  induction n as [|n IH].
  - destruct sm; reflexivity.
  - change (next_n (S n) sm) with (fst (next_score (next_n n sm))).
    unfold next_score at 1 2. rewrite next_n_scores.
    destruct (scores sm) eqn:Hs; cbn [fst].
    + exact IH.
    + rewrite IH. unfold set_current_index; cbn. reflexivity.
Qed.

Lemma add_score_total path d sm :
  get_total_duration (add_score path d sm) = (get_total_duration sm + d)%Q.
Proof.
  unfold get_total_duration, add_score; cbn [scores set_scores].
  rewrite fold_left_app. reflexivity.
Qed.

Lemma cursor_inv_ok sm : cursor_inv sm -> cursor_ok sm.
Proof. intros [[H _] | H] Hne; [congruence | exact H]. Qed.

Lemma add_score_cursor_inv path d sm :
  cursor_inv sm -> cursor_inv (add_score path d sm).
Proof.
  intros [[H0 H1] | H]; right; unfold add_score, len_scores in *;
    cbn [scores set_scores current_index]; rewrite length_app; simpl.
  - rewrite H0, H1. simpl. lia.
  - lia.
Qed.

Lemma next_score_cursor_inv sm :
  cursor_inv sm -> cursor_inv (fst (next_score sm)).
Proof.
  intros H. destruct (scores sm) as [|p l] eqn:Hs.
  - rewrite next_score_empty by assumption. exact H.
  - assert (Hne : scores sm <> []) by congruence.
    right. rewrite next_score_index by assumption.
    unfold len_scores. rewrite next_score_scores.
    apply Z.mod_pos_bound. apply (len_scores_pos sm Hne).
Qed.

Lemma previous_score_cursor_inv sm :
  cursor_inv sm -> cursor_inv (fst (previous_score sm)).
Proof.
  intros H. destruct (scores sm) as [|p l] eqn:Hs.
  - rewrite previous_score_empty by assumption. exact H.
  - assert (Hne : scores sm <> []) by congruence.
    right. rewrite previous_score_index by assumption.
    unfold len_scores. rewrite previous_score_scores.
    apply Z.mod_pos_bound. apply (len_scores_pos sm Hne).
Qed.

(** Without [remove], the cursor stays valid from the initial store on. *)
Lemma cursor_ok_without_remove ops :
  Forall (fun o => forall i, o <> Remove i) ops ->
  cursor_ok (apply_ops ops init).
Proof.
  intros Hops. apply cursor_inv_ok.
  assert (H0 : cursor_inv init) by (left; split; reflexivity).
  revert H0. unfold apply_ops. generalize init as sm.
  induction Hops as [|o ops Ho _ IH]; intros sm Hsm; [exact Hsm |].
  cbn [fold_left]. apply IH.
  destruct o as [path d | i | |]; cbn [apply_op].
  - apply add_score_cursor_inv, Hsm.
  - exfalso. apply (Ho i). reflexivity.
  - apply next_score_cursor_inv, Hsm.
  - apply previous_score_cursor_inv, Hsm.
Qed.

(** C2, as amended. [add_score] has no check of the duration and no way to
    fail: for every path and every duration, positive or not, the page is
    appended at the end of the page sequence, the cursor and the cache are
    left as they were, and the total duration grows by the duration given. *)
Theorem add_score_always_appends (path : string) (d : Q) (sm : ScoreManager) :
  scores (add_score path d sm) = scores sm ++ [(path, d)]
  /\ current_index (add_score path d sm) = current_index sm
  /\ analyzed_pages (add_score path d sm) = analyzed_pages sm
  /\ get_total_duration (add_score path d sm) = (get_total_duration sm + d)%Q.
Proof.
  repeat split. apply add_score_total.
Qed.

(** C2, as stated, fails: a page added with the duration [-5] is stored, and
    the page sequence and the total duration both change. *)
Lemma add_score_stores_negative_duration :
  let sm := add_score "page.png" (-5 # 1) init in
  (-5 # 1 <= 0)%Q
  /\ scores sm = [("page.png"%string, (-5 # 1)%Q)]
  /\ scores sm <> scores init
  /\ ~ (get_total_duration sm == get_total_duration init)%Q.
Proof.
  cbv zeta. repeat split.
  - discriminate.
  - discriminate.
  - vm_compute. discriminate.
Qed.

(** C3: the store reached by adding two pages, moving to the second and
    removing it has one page and the cursor [1]: the cursor is out of
    range, and [get_current_score] raises [IndexError]. *)
Theorem remove_score_leaves_cursor_out_of_range :
  let sm := apply_ops [Add "a.png" 10; Add "b.png" 20; Next; Remove 1] init in
  scores sm = [("a.png"%string, 10%Q)]
  /\ current_index sm = 1
  /\ ~ cursor_ok sm
  /\ get_current_score sm = Raise IndexError.
Proof.
  cbv zeta. split; [reflexivity |]. split; [reflexivity |].
  split; [| reflexivity].
  intros H. unfold cursor_ok in H.
  assert (Hlt : 1 < 1); [| lia].
  apply (H ltac:(vm_compute; discriminate)).
Qed.

(** C8, as amended. On a non-empty store of [N] pages [next_score] moves
    the cursor to [(index + 1) mod N] and [previous_score] to
    [(index - 1) mod N], whatever the cursor was, the pages staying as they
    are; [N] calls of [next_score] bring the cursor to [index mod N], which
    is the cursor they started from, with the store as it was, when that
    cursor was in range; on the empty store both calls change nothing and
    return the pair [(None, None)]. *)
Theorem next_previous_cyclic (sm : ScoreManager) :
  (scores sm <> [] ->
   current_index (fst (next_score sm))
   = (current_index sm + 1) `mod` len_scores sm
   /\ current_index (fst (previous_score sm))
      = (current_index sm - 1) `mod` len_scores sm
   /\ scores (fst (next_score sm)) = scores sm
   /\ scores (fst (previous_score sm)) = scores sm
   /\ current_index (next_n (length (scores sm)) sm)
      = current_index sm `mod` len_scores sm
   /\ (0 <= current_index sm < len_scores sm ->
       next_n (length (scores sm)) sm = sm))
  /\ (scores sm = [] ->
      next_score sm = (sm, Ok None) /\ previous_score sm = (sm, Ok None)).
Proof.
  split.
  - intros Hne.
    split; [apply next_score_index, Hne |].
    split; [apply previous_score_index, Hne |].
    split; [apply next_score_scores |].
    split; [apply previous_score_scores |].
    assert (Hmod : current_index (next_n (length (scores sm)) sm)
                   = current_index sm `mod` len_scores sm).
    { destruct (length (scores sm)) as [|n] eqn:Hlen.
      - destruct (scores sm); [congruence | discriminate Hlen].
      - rewrite next_n_index by assumption.
        unfold len_scores. rewrite Hlen.
        replace (current_index sm + Z.of_nat (S n))
          with (current_index sm + 1 * Z.of_nat (S n)) by lia.
        apply Z_mod_plus_full. }
    split; [exact Hmod |].
    intros Hok. rewrite next_n_set_index, Hmod, Z.mod_small by lia.
    destruct sm; reflexivity.
  - intros Hempty. split.
    + apply next_score_empty, Hempty.
    + apply previous_score_empty, Hempty.
Qed.

Lemma next_previous_cyclic_witness :
  let sm := fst (next_score (fst (next_score three_pages))) in
  current_index sm = 2
  /\ current_index (fst (next_score sm)) = 0
  /\ current_index (fst (previous_score sm)) = 1
  /\ next_n 3 sm = sm.
Proof.
  intros sm.
  assert (Hne : scores sm <> []) by (vm_compute; discriminate).
  assert (Hok : 0 <= current_index sm < len_scores sm).
  { vm_compute. split; [intros H; discriminate H | reflexivity]. }
  destruct (next_previous_cyclic sm) as [Hcyc _].
  destruct (Hcyc Hne) as (Hn & Hp & _ & _ & _ & Hback).
  split; [reflexivity |]. split; [rewrite Hn; reflexivity |].
  split; [rewrite Hp; reflexivity | exact (Hback Hok)].
Defined.

(** C8, as stated, fails: the store reached by adding two pages, moving to
    the second and removing it is not empty, has [N = 1] page and the
    cursor [1]; [N] calls of [next_score] leave the cursor at [0], not at
    the cursor they started from. *)
Lemma next_n_from_out_of_range_cursor :
  let sm := apply_ops [Add "a.png" 10; Add "b.png" 20; Next; Remove 1] init in
  scores sm <> [] /\ length (scores sm) = 1%nat
  /\ current_index sm = 1
  /\ current_index (next_n (length (scores sm)) sm) = 0
  /\ current_index (next_n (length (scores sm)) sm) <> current_index sm.
Proof.
  cbv zeta. split; [vm_compute; discriminate |].
  split; [reflexivity |]. split; [reflexivity |]. split; [reflexivity |].
  vm_compute. discriminate.
Qed.

(** C9, as amended. In every state of the store [has_next_score] holds
    exactly when the store has more than one page and the cursor is below
    the last index. With the cursor in range this is: more than one page
    and the cursor not on the last one; with the cursor beyond the last
    index it is false; and on the last of several pages it is false
    although [next_score] wraps around to the first page. *)
Theorem has_next_score_spec (sm : ScoreManager) :
  (has_next_score sm = true
   <-> 1 < len_scores sm /\ current_index sm < len_scores sm - 1)
  /\ (cursor_ok sm ->
      (has_next_score sm = true
       <-> 1 < len_scores sm /\ current_index sm <> len_scores sm - 1))
  /\ (len_scores sm - 1 < current_index sm -> has_next_score sm = false)
  /\ (1 < len_scores sm -> current_index sm = len_scores sm - 1 ->
      has_next_score sm = false /\ current_index (fst (next_score sm)) = 0).
Proof.
  assert (Hne : 1 < len_scores sm -> scores sm <> []).
  { unfold len_scores. intros H1.
    destruct (scores sm); [simpl in H1; lia | discriminate]. }
  unfold has_next_score. split; [| split; [| split]].
  - rewrite andb_true_iff. lia.
  - intros Hok. rewrite andb_true_iff. split.
    + lia.
    + intros [H1 H2]. specialize (Hok (Hne H1)). lia.
  - intros H. apply andb_false_iff. right. lia.
  - intros H1 H2. split.
    + apply andb_false_iff. right. lia.
    + rewrite next_score_index by auto. rewrite H2.
      replace (len_scores sm - 1 + 1) with (1 * len_scores sm) by lia.
      apply Z_mod_mult.
Qed.

Lemma has_next_score_spec_witness :
  has_next_score two_pages = true
  /\ has_next_score (fst (next_score two_pages)) = false
  /\ current_index (fst (next_score (fst (next_score two_pages)))) = 0.
Proof.
  destruct (has_next_score_spec two_pages) as (_ & Hin & _).
  destruct (has_next_score_spec (fst (next_score two_pages)))
    as (_ & _ & _ & Hlast).
  destruct Hlast as [Hf Hn]; [reflexivity | reflexivity |].
  split; [| split; [exact Hf | exact Hn]].
  apply Hin.
  - intros _. vm_compute. split; [intros H; discriminate H | reflexivity].
  - split; [reflexivity |]. vm_compute. discriminate.
Defined.

(** C9, as stated, fails: the store reached by adding three pages, moving
    to the third and removing the first has two pages and the cursor [2];
    it holds more than one page and its cursor is not the last index [1],
    yet [has_next_score] is false. *)
Lemma has_next_false_beyond_last :
  let sm := apply_ops [Add "a.png" 10; Add "b.png" 20; Add "c.png" 30;
                       Next; Next; Remove 0] init in
  len_scores sm = 2 /\ current_index sm = 2
  /\ 1 < len_scores sm /\ current_index sm <> len_scores sm - 1
  /\ has_next_score sm = false.
Proof.
  cbv zeta. split; [reflexivity |]. split; [reflexivity |].
  split; [reflexivity |]. split; [vm_compute; discriminate | reflexivity].
Qed.

(** ** The feature extractor *)

Lemma Qle_bool_false (a b : Q) : Qle_bool a b = false -> (b < a)%Q.
Proof.
  intros H. apply Qnot_le_lt. intros Hle.
  apply Qle_bool_iff in Hle. congruence.
Qed.

Lemma py_min_le (l : list Q) :
  forall x, (py_min x l <= x)%Q /\ Forall (fun y => (py_min x l <= y)%Q) l.
Proof.
  unfold py_min. induction l as [|y l IH]; intros x; cbn [fold_left].
  - split; [apply Qle_refl | constructor].
  - destruct (Qle_bool x y) eqn:Hxy.
    + apply Qle_bool_iff in Hxy. destruct (IH x) as [H1 H2].
      split; [exact H1 |]. constructor; [| exact H2].
      eapply Qle_trans; eassumption.
    + apply Qle_bool_false in Hxy. destruct (IH y) as [H1 H2].
      split; [| constructor; assumption].
      eapply Qle_trans; [exact H1 | apply Qlt_le_weak, Hxy].
Qed.

Lemma py_max_ge (l : list Q) :
  forall x, (x <= py_max x l)%Q /\ Forall (fun y => (y <= py_max x l)%Q) l.
Proof.
  unfold py_max. induction l as [|y l IH]; intros x; cbn [fold_left].
  - split; [apply Qle_refl | constructor].
  - destruct (Qle_bool y x) eqn:Hyx.
    + apply Qle_bool_iff in Hyx. destruct (IH x) as [H1 H2].
      split; [exact H1 |]. constructor; [| exact H2].
      eapply Qle_trans; eassumption.
    + apply Qle_bool_false in Hyx. destruct (IH y) as [H1 H2].
      split; [| constructor; assumption].
      eapply Qle_trans; [apply Qlt_le_weak, Hyx | exact H1].
Qed.

Lemma inject_Z_length_cons {A} (y : A) (l : list A) :
  (inject_Z (Z.of_nat (length (y :: l)))
   == 1 + inject_Z (Z.of_nat (length l)))%Q.
Proof.
  cbn [length]. rewrite Nat2Z.inj_succ, <- Z.add_1_l, inject_Z_plus.
  reflexivity.
Qed.

Lemma sum_lower_bound (m : Q) (l : list Q) :
  Forall (fun y => (m <= y)%Q) l ->
  forall a, (a + m * inject_Z (Z.of_nat (length l)) <= fold_left Qplus l a)%Q.
Proof.
  induction 1 as [|y l Hy _ IH]; intros a; cbn [fold_left].
  - change (inject_Z (Z.of_nat (length []))) with 0%Q. lra.
  - specialize (IH (a + y)%Q). rewrite inject_Z_length_cons.
    generalize dependent (inject_Z (Z.of_nat (length l))). intros c IH.
    eapply Qle_trans; [| exact IH]. lra.
Qed.

Lemma sum_upper_bound (m : Q) (l : list Q) :
  Forall (fun y => (y <= m)%Q) l ->
  forall a, (fold_left Qplus l a <= a + m * inject_Z (Z.of_nat (length l)))%Q.
Proof.
  induction 1 as [|y l Hy _ IH]; intros a; cbn [fold_left].
  - change (inject_Z (Z.of_nat (length []))) with 0%Q. lra.
  - specialize (IH (a + y)%Q). rewrite inject_Z_length_cons.
    generalize dependent (inject_Z (Z.of_nat (length l))). intros c IH.
    eapply Qle_trans; [exact IH |]. lra.
Qed.

Lemma length_cons_pos {A} (y : A) (l : list A) :
  (0 < inject_Z (Z.of_nat (length (y :: l))))%Q.
Proof.
  change 0%Q with (inject_Z 0). rewrite <- Zlt_Qlt. cbn [length]. lia.
Qed.

(** The mean of a non-empty list lies between its minimum and its maximum. *)
Lemma mean_between (x : Q) (l : list Q) :
  let avg := (q_sum (x :: l) / inject_Z (Z.of_nat (length (x :: l))))%Q in
  (py_min x l <= avg)%Q /\ (avg <= py_max x l)%Q.
Proof.
  cbv zeta. pose proof (length_cons_pos x l) as Hpos.
  destruct (py_min_le l x) as [Hm1 Hm2], (py_max_ge l x) as [HM1 HM2].
  split.
  - apply Qle_shift_div_l; [exact Hpos |].
    pose proof (sum_lower_bound (py_min x l) (x :: l)
                  ltac:(constructor; assumption) 0%Q) as H.
    unfold q_sum. lra.
  - apply Qle_shift_div_r; [exact Hpos |].
    pose proof (sum_upper_bound (py_max x l) (x :: l)
                  ltac:(constructor; assumption) 0%Q) as H.
    unfold q_sum. lra.
Qed.

(** C7: on a region in which no keypoint is detected [analyze_image]
    returns the count [0], empty lists of sizes and positions, and [nan]
    as proximity: the mean of the empty list of distances, which numpy
    returns without raising. *)
Theorem no_keypoints_statistics (E : Env) (image display_image : Image) :
  detectAndCompute E image = [] ->
  let r := fst (analyze_image E image display_image) in
  object_count r = 0 /\ sizes r = [] /\ positions r = []
  /\ proximity r = NaN.
Proof.
  intros H. unfold analyze_image. rewrite H. cbn. auto.
Qed.

Lemma no_keypoints_statistics_witness :
  let r := fst (analyze_image sample_env (blank 848 1424) (blank 848 1424)) in
  object_count r = 0 /\ sizes r = [] /\ positions r = []
  /\ proximity r = NaN.
Proof.
  apply (no_keypoints_statistics sample_env (blank 848 1424) (blank 848 1424)).
  reflexivity.
Defined.

(** C10: the size statistics [analyze_image] returns are all the int [0]
    when no keypoint is detected, and otherwise three floats with
    [min_size <= avg_size <= max_size]. *)
Theorem size_statistics_ordered (E : Env) (image display_image : Image) :
  let r := fst (analyze_image E image display_image) in
  match detectAndCompute E image with
  | [] => min_size r = Int 0 /\ avg_size r = Int 0 /\ max_size r = Int 0
  | _ :: _ =>
    exists mn av mx,
      min_size r = Float (Fin mn) /\ avg_size r = Float (Fin av)
      /\ max_size r = Float (Fin mx)
      /\ (mn <= av)%Q /\ (av <= mx)%Q
  end.
Proof.
  unfold analyze_image. cbn [fst min_size avg_size max_size].
  destruct (detectAndCompute E image) as [|kp kps]; [auto |].
  cbn [map np_mean].
  eexists _, _, _. repeat (split; [reflexivity |]).
  apply mean_between.
Qed.

Example size_statistics_sample :
  let r := fst (analyze_image sample_env (blank 848 60) (blank 848 60)) in
  min_size r = Float (Fin 2) /\ avg_size r = Float (Fin (7 # 2))
  /\ max_size r = Float (Fin 5).
Proof. vm_compute. auto. Qed.

(** ** The session controller: what a transition logs *)

Lemma offsets_app (l1 l2 : list event) :
  offsets (l1 ++ l2) = offsets l1 ++ offsets l2.
Proof. apply flat_map_app. Qed.

Lemma enter_main_log E path d sm auto log :
  log_of (enter_main E path d sm auto log) = log.
Proof.
  unfold enter_main. destruct (imread E path); [| reflexivity].
  destruct sm as [m|]; [| reflexivity].
  destruct (get_analysis (current_index m) m); reflexivity.
Qed.

Lemma goto_page_log E r stay f : log_of (goto_page E r stay f) = out f.
Proof.
  unfold goto_page. destruct r as [sm' [[[path d]|]|e]]; try reflexivity.
  destruct (truthy path); [apply enter_main_log | reflexivity].
Qed.

Lemma static_analysis_offsets E f :
  offsets (log_of (static_analysis E f)) = offsets (out f).
Proof.
  unfold static_analysis. destruct (score_manager f) as [sm|].
  - destruct (analyze_all_pages E sm) as [sm' [[]|e]]; [| reflexivity].
    destruct (get_analysis (current_page (page f)) sm'); [| reflexivity].
    cbn. rewrite offsets_app. cbn. apply app_nil_r.
  - cbn. rewrite offsets_app. cbn. apply app_nil_r.
Qed.

Lemma display_key_offsets E key f :
  offsets (log_of (display_key E key f)) = offsets (out f).
Proof.
  unfold display_key.
  destruct (key =? key_a); [apply static_analysis_offsets |].
  destruct (key =? key_n).
  { destruct (score_manager f); [rewrite goto_page_log |]; reflexivity. }
  destruct (key =? key_p).
  { destruct (score_manager f); [rewrite goto_page_log |]; reflexivity. }
  destruct (key =? key_b); [reflexivity |].
  destruct (key =? key_esc); reflexivity.
Qed.

(** A turn of the inner loop that is not cancelled draws the window at the
    current offset, sends the four statistics and moves the offset by one. *)
Lemma scan_key_step E key f :
  key <> key_esc ->
  let rev := if key =? key_r then true
             else if key =? key_f then false else reverse_scan (scan f) in
  let x := current_position (scan f) in
  exists f',
    scan_key E key f = Running f'
    /\ pc f' = pc f /\ page f' = page f
    /\ score_manager f' = score_manager f
    /\ reverse_scan (scan f') = rev
    /\ current_position (scan f') = (if rev then x - 1 else x + 1)
    /\ scanning (scan f') = scanning (scan f)
    /\ num_steps (scan f') = num_steps (scan f)
    /\ offsets (out f') = offsets (out f) ++ [x]
    /\ exists r, out f' = out f ++
         [Rectangle x (x + scan_width);
          SendMessage "/image/scan_object_count" (Int (object_count r));
          SendMessage "/image/scan_min_size" (min_size r);
          SendMessage "/image/scan_avg_size" (avg_size r);
          SendMessage "/image/scan_max_size" (max_size r)].
Proof.
  intros Hkey. cbv zeta. unfold scan_key.
  replace (key =? key_esc) with false by lia.
  destruct (analyze_image E _ _) as [r display].
  eexists. split; [reflexivity |]. cbn.
  repeat (split; [reflexivity |]).
  split; [rewrite offsets_app; reflexivity |].
  exists r. reflexivity.
Qed.

Lemma scan_key_cancel E f :
  scan_key E key_esc f = Running (set_pc ScanEnd (set_scanning false f)).
Proof. reflexivity. Qed.

Lemma internal_log E f : log_of (internal E f) = out f.
Proof.
  unfold internal. destruct (pc f); try reflexivity.
  - unfold scan_setup. destruct (scanning (scan f)); [| reflexivity].
    destruct (_ =? 0); reflexivity.
  - unfold scan_end. destruct (score_manager f) as [sm|]; [| reflexivity].
    destruct (scanning (scan f) && has_next_score sm);
      [apply goto_page_log | reflexivity].
Qed.

(** A transition draws a window only as a turn of the inner loop, and then
    at the current offset. *)
Lemma step_offsets E f keys :
  offsets (log_of (fst (step E (Running f) keys))) = offsets (out f)
  \/ (pc f = ScanLoop /\ in_scan f = true
      /\ offsets (log_of (fst (step E (Running f) keys)))
         = offsets (out f) ++ [current_position (scan f)]).
Proof.
  unfold step. destruct (awaits_key f) eqn:Hk.
  - destruct keys as [|raw rest]; [left; reflexivity |].
    cbn [fst]. unfold on_key. unfold awaits_key in Hk.
    destruct (pc f) eqn:Hpc; try discriminate.
    + left. apply display_key_offsets.
    + destruct (Z.eq_dec (Z.land raw 255) key_esc) as [He | He].
      * left. rewrite He, scan_key_cancel. reflexivity.
      * right. destruct (scan_key_step E _ f He)
          as (f' & Hf' & _ & _ & _ & _ & _ & _ & _ & Ho & _).
        rewrite Hf'. auto.
  - left. cbn [fst]. rewrite internal_log. reflexivity.
Qed.

(** ** The session controller: invariants of a run *)

Lemma run_invariant (E : Env) (I : State -> Prop) :
  (forall s keys, I s -> I (fst (step E s keys))) ->
  forall fuel s keys, I s -> I (fst (run E fuel s keys)).
Proof.
  intros Hstep. induction fuel as [|n IH]; intros s keys Hs; [exact Hs |].
  cbn [run]. destruct (step E s keys) as [s' rest] eqn:Hs'.
  apply IH. specialize (Hstep s keys Hs). rewrite Hs' in Hstep. exact Hstep.
Qed.

Lemma enter_main_running E path d sm auto log f :
  enter_main E path d sm auto log = Running f ->
  pc f = Display
  /\ scan f = {| reverse_scan := false; current_position := 0;
                 scanning := false; num_steps := 0; step_duration := 0 |}
  /\ duration (page f) = d /\ out f = log
  /\ forall m, sm = Some m ->
       current_page (page f) = current_index m
       /\ exists m', score_manager f = Some m'
                     /\ scores m' = scores m
                     /\ current_index m' = current_index m.
Proof.
  unfold enter_main. destruct (imread E path); [| discriminate].
  destruct sm as [m|].
  - destruct (get_analysis (current_index m) m).
    + intros [= <-]. cbn. repeat (split; [reflexivity |]).
      intros m0 [= <-]. split; [reflexivity |]. exists m. auto.
    + intros [= <-]. cbn. repeat (split; [reflexivity |]).
      intros m0 [= <-]. split; [reflexivity |]. eexists. split; [reflexivity |].
      auto.
  - intros [= <-]. cbn. repeat (split; [reflexivity |]). discriminate.
Qed.

Lemma fixed_size_store i a m :
  fixed_size m -> shape1 (a_original_image a) = 1424 ->
  fixed_size (store_analysis i a m).
Proof.
  intros Hm Ha j b. unfold store_analysis. cbn [analyzed_pages set_analyzed_pages].
  destruct (decide (i = j)) as [-> | Hne].
  - rewrite lookup_insert_eq. intros [= <-]. exact Ha.
  - rewrite lookup_insert_ne by assumption. apply Hm.
Qed.

Lemma fixed_size_next m : fixed_size m -> fixed_size (fst (next_score m)).
Proof.
  unfold next_score. destruct (scores m); intros H; exact H.
Qed.

Lemma fixed_size_previous m :
  fixed_size m -> fixed_size (fst (previous_score m)).
Proof.
  unfold previous_score. destruct (scores m); intros H; exact H.
Qed.

Lemma fixed_size_analyze_pages E l :
  forall i m, fixed_size m -> fixed_size (fst (analyze_pages_from E i l m)).
Proof.
  induction l as [|[path d] l IH]; intros i m Hm; cbn [analyze_pages_from].
  - exact Hm.
  - destruct (imread E path); [| exact Hm].
    apply IH. apply fixed_size_store; [exact Hm | reflexivity].
Qed.

Lemma enter_main_frame_ok E path d sm auto log :
  (forall m, sm = Some m -> fixed_size m) ->
  no_zero_division (enter_main E path d sm auto log).
Proof.
  intros Hsm. unfold enter_main. destruct (imread E path); [| exact I].
  destruct sm as [m|].
  - specialize (Hsm m eq_refl).
    destruct (get_analysis (current_index m) m) as [a|] eqn:Ha.
    + split; cbn.
      * apply (Hsm _ _ Ha).
      * intros ? [= <-]. exact Hsm.
    + split; cbn; [reflexivity |].
      intros ? [= <-]. apply fixed_size_store; [exact Hsm | reflexivity].
  - split; cbn; [reflexivity | discriminate].
Qed.

Lemma getitem_raises {A} (l : list A) i e :
  getitem l i = Raise e -> e = IndexError.
Proof.
  unfold getitem. destruct (_ && _).
  - destruct (l !! _); [discriminate | intros [= <-]; reflexivity].
  - intros [= <-]. reflexivity.
Qed.

Lemma get_current_score_raises sm e :
  get_current_score sm = Raise e -> e = IndexError.
Proof.
  unfold get_current_score. destruct (scores sm); [discriminate |].
  destruct (getitem _ _) eqn:H; cbn; [discriminate |].
  intros [= <-]. eapply getitem_raises, H.
Qed.

Lemma next_score_raises sm e : snd (next_score sm) = Raise e -> e = IndexError.
Proof.
  unfold next_score. destruct (scores sm); [discriminate |].
  apply get_current_score_raises.
Qed.

Lemma previous_score_raises sm e :
  snd (previous_score sm) = Raise e -> e = IndexError.
Proof.
  unfold previous_score. destruct (scores sm); [discriminate |].
  apply get_current_score_raises.
Qed.

Lemma analyze_pages_raises E l :
  forall i m e, snd (analyze_pages_from E i l m) = Raise e -> e = CvError.
Proof.
  induction l as [|[path d] l IH]; intros i m e; cbn [analyze_pages_from].
  - discriminate.
  - destruct (imread E path); [apply IH |].
    intros [= <-]. reflexivity.
Qed.

Lemma goto_page_ok E r stay f :
  frame_ok f -> fixed_size (fst r) ->
  (forall e, snd r = Raise e -> e = IndexError) ->
  no_zero_division (goto_page E r stay f).
Proof.
  intros [Hw Hc] Hr He. unfold goto_page.
  destruct r as [sm' [[[path d]|]|e]]; cbn [fst snd] in *.
  - destruct (truthy path).
    + apply enter_main_frame_ok. intros ? [= <-]. exact Hr.
    + split; cbn; [exact Hw |]. intros ? [= <-]. exact Hr.
  - cbn. discriminate.
  - cbn. rewrite (He e eq_refl). discriminate.
Qed.

Lemma static_analysis_ok E f :
  frame_ok f -> no_zero_division (static_analysis E f).
Proof.
  intros [Hw Hc]. unfold static_analysis.
  destruct (score_manager f) as [sm|] eqn:Hsm.
  - pose proof (fixed_size_analyze_pages E (scores sm) 0 sm (Hc sm eq_refl)) as Hfix.
    pose proof (analyze_pages_raises E (scores sm) 0 sm) as Hraise.
    unfold analyze_all_pages.
    destruct (analyze_pages_from E 0 (scores sm) sm) as [sm' [[]|e]];
      cbn [fst snd] in *.
    + destruct (get_analysis (current_page (page f)) sm') as [a|] eqn:Ha.
      * split; cbn; [apply (Hfix _ _ Ha) |]. intros ? [= <-]. exact Hfix.
      * split; cbn; [exact Hw |]. intros ? [= <-]. exact Hfix.
    + cbn. rewrite (Hraise e eq_refl). discriminate.
  - split; cbn; [exact Hw |]. rewrite Hsm. discriminate.
Qed.

Lemma display_key_ok E key f :
  frame_ok f -> no_zero_division (display_key E key f).
Proof.
  intros Hf. pose proof Hf as [Hw Hc]. unfold display_key.
  destruct (key =? key_a); [apply static_analysis_ok, Hf |].
  destruct (key =? key_n).
  { destruct (score_manager f) as [sm|] eqn:Hsm; [| exact Hf].
    apply goto_page_ok; [exact Hf | apply fixed_size_next, Hc, eq_refl |].
    apply next_score_raises. }
  destruct (key =? key_p).
  { destruct (score_manager f) as [sm|] eqn:Hsm; [| exact Hf].
    apply goto_page_ok; [exact Hf | apply fixed_size_previous, Hc, eq_refl |].
    apply previous_score_raises. }
  destruct (key =? key_b); [exact Hf |].
  destruct (key =? key_esc); [exact I | exact Hf].
Qed.

Lemma scan_key_ok E key f :
  frame_ok f -> no_zero_division (scan_key E key f).
Proof.
  intros Hf. destruct (Z.eq_dec key key_esc) as [-> | Hk].
  - rewrite scan_key_cancel. exact Hf.
  - destruct (scan_key_step E key f Hk) as (f' & -> & _ & Hp & Hs & _).
    destruct Hf as [Hw Hc]. split; cbn; rewrite ?Hp, ?Hs; assumption.
Qed.

Lemma scan_setup_ok f : frame_ok f -> no_zero_division (scan_setup f).
Proof.
  intros Hf. pose proof Hf as [Hw Hc]. unfold scan_setup.
  destruct (scanning (scan f)); [| exact Hf].
  rewrite Hw. cbn. exact Hf.
Qed.

Lemma scan_end_ok E f : frame_ok f -> no_zero_division (scan_end E f).
Proof.
  intros Hf. pose proof Hf as [Hw Hc]. unfold scan_end.
  destruct (score_manager f) as [sm|] eqn:Hsm; [| split; cbn; [exact Hw | rewrite Hsm; discriminate]].
  destruct (scanning (scan f) && has_next_score sm).
  - apply goto_page_ok; [exact Hf | apply fixed_size_next, Hc, eq_refl |].
    apply next_score_raises.
  - split; cbn; [exact Hw |]. rewrite Hsm. exact Hc.
Qed.

Lemma step_ok E s keys :
  no_zero_division s -> no_zero_division (fst (step E s keys)).
Proof.
  destruct s as [f | |]; intros Hs; [| exact Hs | exact Hs].
  unfold step. destruct (awaits_key f).
  - destruct keys as [|raw rest]; [exact Hs |].
    cbn [fst]. unfold on_key. destruct (pc f).
    + apply display_key_ok, Hs.
    + exact Hs.
    + apply scan_key_ok, Hs.
    + exact Hs.
  - cbn [fst]. unfold internal. destruct (pc f).
    + exact Hs.
    + apply scan_setup_ok, Hs.
    + exact Hs.
    + apply scan_end_ok, Hs.
Qed.

Lemma goto_page_pc E r stay f f' :
  goto_page E r stay f = Running f' -> pc f' = Display \/ pc f' = stay.
Proof.
  unfold goto_page. destruct r as [sm' [[[path d]|]|e]]; try discriminate.
  destruct (truthy path).
  - intros H. left. apply (enter_main_running _ _ _ _ _ _ _ H).
  - intros [= <-]. right. reflexivity.
Qed.

Lemma static_analysis_pc E f f' :
  static_analysis E f = Running f' -> pc f' = pc f.
Proof.
  unfold static_analysis. destruct (score_manager f) as [sm|].
  - destruct (analyze_all_pages E sm) as [sm' [[]|e]]; [| discriminate].
    destruct (get_analysis _ sm'); intros [= <-]; reflexivity.
  - intros [= <-]. reflexivity.
Qed.

Lemma display_key_pc E key f f' :
  pc f = Display -> display_key E key f = Running f' -> pc f' <> ScanLoop.
Proof.
  intros Hpc. unfold display_key.
  destruct (key =? key_a).
  { intros H. rewrite (static_analysis_pc _ _ _ H), Hpc. discriminate. }
  destruct (key =? key_n).
  { destruct (score_manager f); [| intros [= <-]; rewrite Hpc; discriminate].
    intros H. destruct (goto_page_pc _ _ _ _ _ H) as [-> | ->]; discriminate. }
  destruct (key =? key_p).
  { destruct (score_manager f); [| intros [= <-]; rewrite Hpc; discriminate].
    intros H. destruct (goto_page_pc _ _ _ _ _ H) as [-> | ->]; discriminate. }
  destruct (key =? key_b); [intros [= <-]; discriminate |].
  destruct (key =? key_esc); [discriminate |].
  intros [= <-]. rewrite Hpc. discriminate.
Qed.

(** Entering the inner loop: the step count and the first offset. *)
Lemma scan_setup_running f :
  scanning (scan f) = true ->
  shape1 (image (page f)) - scan_width + 1 <> 0 ->
  exists f',
    scan_setup f = Running f' /\ pc f' = ScanLoop /\ page f' = page f
    /\ score_manager f' = score_manager f /\ out f' = out f
    /\ scanning (scan f') = true
    /\ reverse_scan (scan f') = reverse_scan (scan f)
    /\ num_steps (scan f') = shape1 (image (page f)) - scan_width + 1
    /\ current_position (scan f')
       = if reverse_scan (scan f)
         then shape1 (image (page f)) - scan_width + 1 - 1 else 0.
Proof.
  intros Hs Hn. unfold scan_setup. rewrite Hs.
  destruct (_ =? 0) eqn:H0; [lia |].
  eexists. split; [reflexivity |]. cbn. auto 10.
Qed.

Lemma step_steps_match E s keys :
  state_sat steps_match s -> state_sat steps_match (fst (step E s keys)).
Proof.
  destruct s as [f | |]; intros Hs; [| exact I | exact I].
  cbn [state_sat] in Hs. unfold step. destruct (awaits_key f).
  - destruct keys as [|raw rest]; [exact Hs |].
    cbn [fst]. unfold on_key. destruct (pc f) eqn:Hpc; try exact Hs.
    + destruct (display_key E _ f) as [f' | |] eqn:Hd; try exact I.
      intros Hloop. exfalso. exact (display_key_pc _ _ _ _ Hpc Hd Hloop).
    + destruct (Z.eq_dec (Z.land raw 255) key_esc) as [-> | Hk].
      * rewrite scan_key_cancel. cbn. discriminate.
      * destruct (scan_key_step E _ f Hk)
          as (f' & -> & _ & Hp & _ & _ & _ & _ & Hn & _).
        intros _. cbn in *. rewrite Hp, Hn. apply Hs, Hpc.
  - cbn [fst]. unfold internal. destruct (pc f) eqn:Hpc.
    + exact Hs.
    + unfold scan_setup. destruct (scanning (scan f));
        [| cbn; discriminate].
      destruct (_ =? 0); [exact I |]. cbn. intros _. reflexivity.
    + cbn. discriminate.
    + unfold scan_end. destruct (score_manager f) as [sm|];
        [| cbn; discriminate].
      destruct (scanning (scan f) && has_next_score sm); [| cbn; discriminate].
      destruct (goto_page E _ ScanSetup f) as [f' | |] eqn:Hg; try exact I.
      intros Hloop.
      destruct (goto_page_pc _ _ _ _ _ Hg) as [H | H];
        rewrite H in Hloop; discriminate.
Qed.

Lemma in_scan_range f :
  in_scan f = true ->
  0 <= current_position (scan f) < num_steps (scan f).
Proof.
  unfold in_scan. intros H.
  apply andb_true_iff in H as [_ H]. apply andb_true_iff in H. lia.
Qed.

Lemma run_steps_match E fuel f0 keys :
  pc f0 = Display ->
  state_sat steps_match (fst (run E fuel (Running f0) keys)).
Proof.
  intros Hpc. apply (run_invariant E (state_sat steps_match)).
  - intros s ks. apply step_steps_match.
  - intros H. rewrite Hpc in H. discriminate.
Qed.

(** C1: in every state [main] reaches from its display loop, the scan of a
    page at least as wide as the window starts with
    [num_steps = page width - window width + 1] (1365 for a page 1424 wide
    and the window of 60), the inner loop runs with that count, a
    transition draws a scan window only at the current offset and only
    when that offset lies in [[0, num_steps)], and outside of that range
    the inner loop is left without a step. *)
Theorem scan_offsets_in_range (E : Env) (f0 : Frame) (fuel : nat)
  (keys : list Z) (f : Frame) (rest : list Z) :
  pc f0 = Display ->
  run E fuel (Running f0) keys = (Running f, rest) ->
  let w := shape1 (image (page f)) in
  let n := w - scan_width + 1 in
  (pc f = ScanSetup -> scanning (scan f) = true -> scan_width <= w ->
   forall ks, exists f',
     step E (Running f) ks = (Running f', ks)
     /\ pc f' = ScanLoop /\ page f' = page f /\ num_steps (scan f') = n)
  /\ (w = 1424 -> n = 1365)
  /\ (pc f = ScanLoop -> num_steps (scan f) = n)
  /\ (forall ks x,
        offsets (log_of (fst (step E (Running f) ks))) = offsets (out f) ++ [x] ->
        pc f = ScanLoop /\ x = current_position (scan f) /\ 0 <= x < n)
  /\ (pc f = ScanLoop -> ~ (0 <= current_position (scan f) < n) ->
      forall ks, step E (Running f) ks = (Running (set_pc ScanEnd f), ks)).
Proof.
  intros Hpc Hrun w n.
  pose proof (run_steps_match E fuel f0 keys Hpc) as Hinv.
  rewrite Hrun in Hinv. cbn in Hinv.
  split; [| split; [| split; [| split]]].
  - intros Hsetup Hscan Hw ks.
    destruct (scan_setup_running f Hscan) as (f' & Hf' & Hl & Hp & _ & _ & _ & _ & Hn & _).
    { fold w. lia. }
    exists f'. unfold step, awaits_key, internal. rewrite Hsetup, Hf'. auto.
  - subst n. unfold scan_width. lia.
  - exact Hinv.
  - intros ks x Hx. destruct (step_offsets E f ks) as [Hsame | (Hloop & Hin & Hone)].
    + rewrite Hsame in Hx. rewrite <- (app_nil_r (offsets (out f))) in Hx at 1.
      apply app_inv_head in Hx. discriminate.
    + rewrite Hone in Hx. apply app_inv_head in Hx. injection Hx as <-.
      pose proof (in_scan_range f Hin) as Hr. rewrite (Hinv Hloop) in Hr.
      auto.
  - intros Hloop Hout ks. unfold step, awaits_key. rewrite Hloop.
    destruct (in_scan f) eqn:Hin.
    + exfalso. apply Hout. subst n w. rewrite <- (Hinv Hloop).
      apply in_scan_range, Hin.
    + unfold internal. rewrite Hloop. reflexivity.
Qed.

Lemma scan_offsets_in_range_witness :
  let r := run sample_env 4 (Running sample_frame) [98; -1; 114] in
  let f := frame_of sample_frame (fst r) in
  pc f = ScanLoop /\ num_steps (scan f) = 1365
  /\ current_position (scan f) = 0 /\ offsets (out f) = [0; 1].
Proof.
  intros r f.
  assert (Hrun : run sample_env 4 (Running sample_frame) [98; -1; 114]
                 = (Running f, snd r)).
  { vm_compute. reflexivity. }
  destruct (scan_offsets_in_range sample_env sample_frame 4 [98; -1; 114]
              f (snd r) eq_refl Hrun) as (_ & _ & Hn & _).
  split; [reflexivity |]. split; [rewrite Hn; reflexivity |].
  split; reflexivity.
Defined.

(** From a call of [main] on, every scan window ever drawn starts at an
    offset in [[0, 1365)]. *)
Lemma run_offsets_in_range E path d sm auto fuel keys :
  (forall m, sm = Some m -> fixed_size m) ->
  Forall (fun x => 0 <= x < 1365)
    (offsets (log_of (fst (run E fuel (enter_main E path d sm auto []) keys)))).
Proof.
  intros Hsm.
  pose (Inv := fun s => no_zero_division s /\ state_sat steps_match s
                      /\ Forall (fun x => 0 <= x < 1365) (offsets (log_of s))).
  enough (HI : Inv (fst (run E fuel (enter_main E path d sm auto []) keys)))
    by apply HI.
  apply (run_invariant E Inv).
  - intros s ks (Hz & Hm & Hlog).
    split; [apply step_ok, Hz |]. split; [apply step_steps_match, Hm |].
    destruct s as [f | |]; [| exact Hlog | exact Hlog].
    destruct (step_offsets E f ks) as [-> | (Hloop & Hin & ->)];
      [exact Hlog |].
    apply Forall_app. split; [exact Hlog |].
    constructor; [| constructor].
    pose proof (in_scan_range f Hin) as Hr. destruct Hz as [Hw _].
    cbn in Hm. rewrite (Hm Hloop), Hw in Hr. exact Hr.
  - split; [apply enter_main_frame_ok, Hsm |]. split.
    + destruct (enter_main E path d sm auto []) as [f | |] eqn:He;
        [| exact I | exact I].
      intros Hloop. apply enter_main_running in He as (Hpc & _).
      rewrite Hpc in Hloop. discriminate.
    + rewrite enter_main_log. constructor.
Qed.




(** C6, as amended. A turn of the inner loop that is not cancelled visits
    the current offset [k] and then moves the offset by one, never
    resetting it: to [k - 1] with the reverse direction when ['r'] was
    read, to [k + 1] with the forward direction when ['f'] was read, and by
    one in the direction the scan had for any other key; the step count and
    the page are untouched. The new offset is the one the next turn
    visits when it lies in [[0, num_steps)]; when it does not, as after
    ['r'] at the offset [0], the inner loop is left without a further
    turn. *)
Theorem toggle_keeps_offset (E : Env) (f : Frame) (raw : Z) (keys : list Z) :
  pc f = ScanLoop -> in_scan f = true -> Z.land raw 255 <> key_esc ->
  let k := current_position (scan f) in
  exists f',
    step E (Running f) (raw :: keys) = (Running f', keys)
    /\ pc f' = ScanLoop /\ page f' = page f
    /\ num_steps (scan f') = num_steps (scan f)
    /\ offsets (out f') = offsets (out f) ++ [k]
    /\ (Z.land raw 255 = key_r ->
        reverse_scan (scan f') = true /\ current_position (scan f') = k - 1)
    /\ (Z.land raw 255 = key_f ->
        reverse_scan (scan f') = false /\ current_position (scan f') = k + 1)
    /\ (Z.land raw 255 <> key_r -> Z.land raw 255 <> key_f ->
        reverse_scan (scan f') = reverse_scan (scan f)
        /\ current_position (scan f')
           = if reverse_scan (scan f) then k - 1 else k + 1)
    /\ (0 <= current_position (scan f') < num_steps (scan f) ->
        forall raw' keys', Z.land raw' 255 <> key_esc ->
        exists f'',
          step E (Running f') (raw' :: keys') = (Running f'', keys')
          /\ offsets (out f'')
             = offsets (out f) ++ [k; current_position (scan f')])
    /\ (~ (0 <= current_position (scan f') < num_steps (scan f)) ->
        forall keys',
          step E (Running f') keys' = (Running (set_pc ScanEnd f'), keys')).
Proof.
  intros Hpc Hin He k.
  destruct (scan_key_step E _ f He)
    as (f' & Hf' & Hpc' & Hp & _ & Hrev & Hpos & Hscan & Hn & Ho & _).
  fold k in Hpos, Ho.
  assert (Hs : scanning (scan f) = true).
  { unfold in_scan in Hin. apply andb_true_iff in Hin as [Hs _]. exact Hs. }
  exists f'. split.
  { unfold step, awaits_key, on_key. rewrite Hpc, Hin, Hf'. reflexivity. }
  split; [congruence |]. split; [exact Hp |]. split; [exact Hn |].
  split; [exact Ho |].
  split; [| split; [| split; [| split]]].
  - intros Hr. rewrite Hpos, Hrev, Hr. cbn. auto.
  - intros Hf. rewrite Hpos, Hrev, Hf. cbn. auto.
  - intros Hr Hf. rewrite Hpos, Hrev.
    replace (Z.land raw 255 =? key_r) with false by lia.
    replace (Z.land raw 255 =? key_f) with false by lia. auto.
  - intros Hk raw' keys' Hraw'.
    assert (Hin' : in_scan f' = true).
    { unfold in_scan. rewrite Hscan, Hs, Hn. cbn [andb].
      apply andb_true_iff. lia. }
    destruct (scan_key_step E _ f' Hraw')
      as (f'' & Hf'' & _ & _ & _ & _ & _ & _ & _ & Ho' & _).
    exists f''. split.
    { unfold step, awaits_key, on_key. rewrite Hpc', Hpc, Hin', Hf''.
      reflexivity. }
    rewrite Ho', Ho, <- app_assoc. reflexivity.
  - intros Hk keys'.
    assert (Hin' : in_scan f' = false).
    { destruct (in_scan f') eqn:Hin'; [| reflexivity].
      exfalso. apply Hk. rewrite <- Hn. apply in_scan_range, Hin'. }
    unfold step, awaits_key, internal. rewrite Hpc', Hpc, Hin'. reflexivity.
Qed.

Lemma toggle_keeps_offset_witness :
  let f := frame_of sample_frame
             (fst (run sample_env 4 (Running sample_frame) [98; -1; -1])) in
  current_position (scan f) = 2
  /\ exists f',
       step sample_env (Running f) [114] = (Running f', [])
       /\ reverse_scan (scan f') = true
       /\ current_position (scan f') = 1
       /\ offsets (out f') = [0; 1; 2].
Proof.
  intros f. split; [reflexivity |].
  destruct (toggle_keeps_offset sample_env f 114 [])
    as (f' & Hstep & _ & _ & _ & Ho & Hr & _).
  - reflexivity.
  - reflexivity.
  - vm_compute. discriminate.
  - destruct (Hr eq_refl) as [Hrev Hpos].
    exists f'. split; [exact Hstep |]. split; [exact Hrev |].
    split; [exact Hpos | exact Ho].
Defined.

(** C6, as stated, fails at the offset [0]: a scan that has just started,
    forward, reads ['r']; it visits the offset 0 and moves to [-1], which
    is never visited: ten more polls later the only window ever drawn is
    the one at 0, the scan of the page having ended. *)
Lemma toggle_at_offset_zero_ends_scan :
  let f := frame_of sample_frame
             (fst (run sample_env 2 (Running sample_frame) [98])) in
  let s := fst (run sample_env 12 (Running f) (114 :: repeat (-1) 10)) in
  pc f = ScanLoop /\ in_scan f = true
  /\ current_position (scan f) = 0 /\ reverse_scan (scan f) = false
  /\ current_position
       (scan (frame_of f (fst (step sample_env (Running f) [114])))) = 0 - 1
  /\ offsets (log_of s) = [0]
  /\ ~ In (0 - 1) (offsets (log_of s)).
Proof.
  cbv zeta. repeat (split; [reflexivity |]).
  vm_compute. intros [H | H]; [discriminate H | exact H].
Qed.

Lemma display_key_stays E key f :
  pc f = Display -> key <> key_b ->
  state_sat (fun f' => pc f' = Display) (display_key E key f).
Proof.
  intros Hpc Hkey. unfold display_key.
  destruct (key =? key_a).
  { destruct (static_analysis E f) as [f' | |] eqn:H; [| exact I | exact I].
    cbn. rewrite (static_analysis_pc _ _ _ H). exact Hpc. }
  destruct (key =? key_n).
  { destruct (score_manager f); [| exact Hpc].
    destruct (goto_page E _ Display f) as [f' | |] eqn:H; [| exact I | exact I].
    cbn. destruct (goto_page_pc _ _ _ _ _ H); assumption. }
  destruct (key =? key_p).
  { destruct (score_manager f); [| exact Hpc].
    destruct (goto_page E _ Display f) as [f' | |] eqn:H; [| exact I | exact I].
    cbn. destruct (goto_page_pc _ _ _ _ _ H); assumption. }
  destruct (key =? key_b) eqn:Hb; [lia |].
  destruct (key =? key_esc); [exact I | exact Hpc].
Qed.

(** In the display loop no scan window is drawn before ['b'] is read. *)
Lemma run_display_draws_nothing E fuel :
  forall s ks,
    state_sat (fun f => pc f = Display) s ->
    Forall (fun raw => Z.land raw 255 <> key_b) ks ->
    offsets (log_of (fst (run E fuel s ks))) = offsets (log_of s).
Proof.
  induction fuel as [|n IH]; intros s ks Hs Hks; [reflexivity |].
  cbn [run]. destruct s as [f | sm l | e sm l].
  - cbn in Hs. unfold step, awaits_key. rewrite Hs.
    destruct Hks as [|raw rest Hraw Hrest].
    + rewrite IH; [reflexivity | exact Hs | constructor].
    + unfold on_key. rewrite Hs. rewrite IH.
      * apply display_key_offsets.
      * apply display_key_stays; assumption.
      * exact Hrest.
  - cbn [step]. apply IH; [exact I | exact Hks].
  - cbn [step]. apply IH; [exact I | exact Hks].
Qed.

Lemma display_idle E f :
  pc f = Display -> scanning (scan f) = false -> idle E f.
Proof.
  intros Hpc Hs. split; [exact Hpc |]. split; [exact Hs |].
  intros fuel ks Hks.
  apply (run_display_draws_nothing E fuel (Running f) ks Hpc Hks).
Qed.

Lemma enter_main_loads E path d sm auto log raw :
  imread E path = Some raw ->
  exists f, enter_main E path d sm auto log = Running f.
Proof.
  intros H. unfold enter_main. rewrite H.
  destruct sm as [m|]; [| eexists; reflexivity].
  destruct (get_analysis (current_index m) m); eexists; reflexivity.
Qed.

Lemma has_next_score_nonempty sm : has_next_score sm = true -> scores sm <> [].
Proof.
  unfold has_next_score, len_scores. intros H Hs. rewrite Hs in H.
  discriminate H.
Qed.

(** C4, as amended. When the offset has left [[0, num_steps)] with the scan
    still active, the inner loop is left. With a score manager whose
    [has_next_score] holds, the cursor moves to the next page and, that
    page having a non-empty path whose image loads, [main] is entered anew
    on it: it stands in its display loop, not scanning, with the offset 0
    and the forward direction, and nothing was drawn or sent on the way; a
    scan of the new page starts with the next ['b'] only. Otherwise [main]
    goes back to the display loop of the same page, not scanning. *)
Theorem scan_end_transition (E : Env) (f : Frame) (keys : list Z) :
  pc f = ScanLoop -> scanning (scan f) = true ->
  ~ (0 <= current_position (scan f) < num_steps (scan f)) ->
  step E (Running f) keys = (Running (set_pc ScanEnd f), keys)
  /\ match score_manager f with
     | Some sm =>
       if has_next_score sm then
         forall path d raw,
           snd (next_score sm) = Ok (Some (path, d)) ->
           truthy path = true -> imread E path = Some raw ->
           exists f' sm',
             run E 2 (Running f) keys = (Running f', keys)
             /\ idle E f'
             /\ current_position (scan f') = 0
             /\ reverse_scan (scan f') = false
             /\ out f' = out f /\ duration (page f') = d
             /\ score_manager f' = Some sm' /\ scores sm' = scores sm
             /\ current_index sm'
                = (current_index sm + 1) `mod` len_scores sm
             /\ (0 <= current_index sm ->
                 current_index sm' = current_index sm + 1)
             /\ current_page (page f') = current_index sm'
       else
         run E 3 (Running f) keys
         = (Running (set_pc Display (set_scanning false f)), keys)
         /\ idle E (set_pc Display (set_scanning false f))
     | None =>
       run E 3 (Running f) keys
       = (Running (set_pc Display (set_scanning false f)), keys)
       /\ idle E (set_pc Display (set_scanning false f))
     end.
Proof.
  intros Hpc Hscan Hout.
  assert (Hin : in_scan f = false).
  { destruct (in_scan f) eqn:Hin; [| reflexivity].
    exfalso. apply Hout, in_scan_range, Hin. }
  assert (Hstep : step E (Running f) keys = (Running (set_pc ScanEnd f), keys)).
  { unfold step, awaits_key, internal. rewrite Hpc, Hin. reflexivity. }
  split; [exact Hstep |].
  destruct (score_manager f) as [sm|] eqn:Hsm.
  - destruct (has_next_score sm) eqn:Hnext.
    + intros path d raw Hret Htruthy Hread.
      destruct (enter_main_loads E path d (Some (fst (next_score sm)))
                  (auto_play f) (out f) raw Hread) as [f' Hf'].
      pose proof (enter_main_running _ _ _ _ _ _ _ Hf')
        as (Hpc' & Hscan' & Hd & Hlog & Hm).
      destruct (Hm _ eq_refl) as (Hpage & sm' & Hsm' & Hscores & Hidx).
      pose proof (has_next_score_nonempty sm Hnext) as Hne.
      exists f', sm'. split.
      { cbn [run]. rewrite Hstep. unfold step, awaits_key, internal.
        cbn [pc set_pc]. unfold scan_end. cbn [score_manager set_pc scan].
        rewrite Hsm, Hscan, Hnext. cbn [andb]. unfold goto_page.
        destruct (next_score sm) as [sm1 res]. cbn [fst snd] in *.
        rewrite Hret, Htruthy. cbn [auto_play out set_pc]. rewrite Hf'.
        reflexivity. }
      split; [apply display_idle; [exact Hpc' | rewrite Hscan'; reflexivity] |].
      rewrite Hscan'. cbn [scanning current_position reverse_scan].
      repeat (split; [assumption || reflexivity |]).
      split; [rewrite Hscores; apply next_score_scores |].
      assert (Hi : current_index sm'
                   = (current_index sm + 1) `mod` len_scores sm).
      { rewrite Hidx. apply next_score_index, Hne. }
      split; [exact Hi |]. split; [| congruence].
      intros H0. rewrite Hi. apply Z.mod_small.
      unfold has_next_score in Hnext. apply andb_true_iff in Hnext. lia.
    + cbn [run]. rewrite Hstep. unfold step, awaits_key, internal.
      cbn [pc set_pc]. unfold scan_end. cbn [score_manager set_pc scan].
      rewrite Hsm, Hscan, Hnext. cbn [andb pc set_pc].
      unfold scan_setup. split; [reflexivity |].
      apply display_idle; reflexivity.
  - cbn [run]. rewrite Hstep. unfold step, awaits_key, internal.
    cbn [pc set_pc]. unfold scan_end. cbn [score_manager set_pc].
    rewrite Hsm. cbn [pc set_pc]. unfold scan_setup. split; [reflexivity |].
    apply display_idle; reflexivity.
Qed.

Lemma scan_end_transition_witness :
  let f := frame_of sample_frame
             (fst (run sample_env 3 (Running sample_frame) [98; 114])) in
  current_position (scan f) = -1
  /\ exists f' sm',
       run sample_env 2 (Running f) [] = (Running f', [])
       /\ pc f' = Display /\ scanning (scan f') = false
       /\ score_manager f' = Some sm' /\ current_index sm' = 1.
Proof.
  intros f. split; [reflexivity |].
  assert (Hout : ~ (0 <= current_position (scan f) < num_steps (scan f))).
  { intros [H _]. apply H. reflexivity. }
  destruct (scan_end_transition sample_env f [] eq_refl eq_refl Hout)
    as [_ Hnext].
  destruct (score_manager f) as [sm|] eqn:Hsm; [| discriminate Hsm].
  assert (Hscores : scores sm = scores two_pages /\ current_index sm = 0).
  { injection Hsm as <-. split; reflexivity. }
  destruct Hscores as [Hscores Hidx].
  assert (Hhas : has_next_score sm = true).
  { unfold has_next_score, len_scores. rewrite Hscores, Hidx. reflexivity. }
  rewrite Hhas in Hnext.
  destruct (Hnext "b.png"%string 20%Q (blank 10 10))
    as (f' & sm' & Hrun & (Hpc & Hscan & _) & _ & _ & _ & _ & Hsm' & _ & Hi & _).
  - unfold next_score, get_current_score, len_scores.
    cbn [scores set_current_index current_index]. rewrite Hscores, Hidx.
    reflexivity.
  - reflexivity.
  - reflexivity.
  - exists f', sm'. repeat (split; [assumption |]).
    rewrite Hi. unfold len_scores. rewrite Hscores, Hidx. reflexivity.
Defined.

(** C4, as stated, fails: the scan of the first of two pages ends (here at
    once, the direction being reversed on the first turn); [main] moves to
    the second page and stays in its display loop through twenty polls
    without a key: no scan step is made on the new page. *)
Lemma no_scan_restart_on_next_page :
  let r := run sample_env 40 sample_start (98 :: 114 :: repeat (-1) 20) in
  match fst r with
  | Running f =>
    pc f = Display /\ scanning (scan f) = false
    /\ option_map current_index (score_manager f) = Some 1
    /\ option_map has_next_score (score_manager sample_frame) = Some true
    /\ offsets (out f) = [0]
    /\ snd r = []
  | _ => False
  end.
Proof.
  vm_compute. repeat split.
Qed.

(** ** More on the page store *)

Lemma total_from (l : list (string * Q)) :
  forall a,
    (fold_left (fun acc p => acc + snd p) l a
     == a + fold_left (fun acc p => acc + snd p) l 0)%Q.
Proof.
  induction l as [|p l IH]; intros a; cbn [fold_left].
  - lra.
  - rewrite (IH (a + snd p)%Q), (IH (0 + snd p)%Q). lra.
Qed.

Lemma total_app (l1 l2 : list (string * Q)) :
  (fold_left (fun acc p => acc + snd p) (l1 ++ l2) 0
   == fold_left (fun acc p => acc + snd p) l1 0
      + fold_left (fun acc p => acc + snd p) l2 0)%Q.
Proof. rewrite fold_left_app. apply total_from. Qed.

(** X1: [remove_score] with an index in range shortens the page sequence by
    one: the pages before the index stay where they are, the pages after it
    move down by one, and the cursor is not touched; with an index out of
    range (negative ones included) the store is left as it is. *)
Theorem remove_score_pages (i : Z) (sm : ScoreManager) :
  (0 <= i < len_scores sm ->
   len_scores (remove_score i sm) = len_scores sm - 1
   /\ (forall j : nat, (j < Z.to_nat i)%nat ->
         scores (remove_score i sm) !! j = scores sm !! j)
   /\ (forall j : nat, (Z.to_nat i <= j)%nat ->
         scores (remove_score i sm) !! j = scores sm !! S j)
   /\ current_index (remove_score i sm) = current_index sm)
  /\ (~ (0 <= i < len_scores sm) -> remove_score i sm = sm).
Proof.
  unfold remove_score. split.
  - intros Hi. replace ((0 <=? i) && (i <? len_scores sm)) with true by lia.
    unfold len_scores in *.
    cbn [scores set_scores set_analyzed_pages current_index]. split.
    + rewrite length_delete; [lia |]. apply lookup_lt_is_Some. lia.
    + split; [| split; [| reflexivity]].
      * intros j Hj. apply list_lookup_delete_lt, Hj.
      * intros j Hj. apply list_lookup_delete_ge, Hj.
  - intros Hi. replace ((0 <=? i) && (i <? len_scores sm)) with false by lia.
    reflexivity.
Qed.

Lemma remove_score_pages_witness :
  scores (remove_score 1 three_pages)
  = [("a.png"%string, 10%Q); ("c.png"%string, 30%Q)]
  /\ len_scores (remove_score 1 three_pages) = 2
  /\ remove_score 3 three_pages = three_pages.
Proof.
  destruct (remove_score_pages 1 three_pages) as [Hin _].
  destruct (remove_score_pages 3 three_pages) as [_ Hout].
  destruct Hin as (Hlen & _); [vm_compute; split; [intros H; discriminate H | reflexivity] |].
  split; [reflexivity |]. split; [exact Hlen |].
  apply Hout. vm_compute. intros [_ H]. discriminate H.
Defined.

(** X2: [remove_score] with an index in range drops the cached analysis
    stored under that index and leaves every other cached analysis under
    the key it had: the analyses of the pages that moved down are not
    moved with them. *)
Theorem remove_score_cache (i : Z) (sm : ScoreManager) :
  0 <= i < len_scores sm ->
  get_analysis i (remove_score i sm) = None
  /\ forall j, j <> i ->
       get_analysis j (remove_score i sm) = get_analysis j sm.
Proof.
  intros Hi. unfold remove_score, get_analysis.
  replace ((0 <=? i) && (i <? len_scores sm)) with true by lia.
  cbn [analyzed_pages set_analyzed_pages set_scores]. split.
  - apply lookup_delete_eq.
  - intros j Hj. apply lookup_delete_ne. congruence.
Qed.

Lemma remove_score_cache_witness :
  let d := page_analysis sample_env (blank 10 10) in
  let sm := store_analysis 1 d (store_analysis 0 d two_pages) in
  get_analysis 0 (remove_score 0 sm) = None
  /\ get_analysis 1 (remove_score 0 sm) = Some d
  /\ scores (remove_score 0 sm) !! 1%nat = None.
Proof.
  intros d sm.
  destruct (remove_score_cache 0 sm) as [Hgone Hkept].
  { vm_compute. split; [intros H; discriminate H | reflexivity]. }
  split; [exact Hgone |]. split; [| reflexivity].
  rewrite Hkept by discriminate. reflexivity.
Defined.

(** X3: removing a page lowers the total duration by the duration of that
    page (in exact arithmetic). *)
Theorem remove_score_total (i : Z) (sm : ScoreManager) (path : string) (d : Q) :
  0 <= i -> scores sm !! Z.to_nat i = Some (path, d) ->
  (get_total_duration (remove_score i sm) == get_total_duration sm - d)%Q.
Proof.
  intros H0 Hl. pose proof (lookup_lt_Some _ _ _ Hl) as Hlt.
  unfold remove_score, len_scores.
  replace ((0 <=? i) && (i <? Z.of_nat (length (scores sm)))) with true by lia.
  unfold get_total_duration. cbn [scores set_scores set_analyzed_pages].
  rewrite <- (take_drop_middle _ _ _ Hl) at 2.
  rewrite delete_take_drop, !total_app. cbn [fold_left snd].
  rewrite (total_from (drop (S (Z.to_nat i)) (scores sm)) (0 + d)%Q). lra.
Qed.

Lemma remove_score_total_witness :
  (get_total_duration (remove_score 1 three_pages) == 60 - 20)%Q.
Proof.
  apply (remove_score_total 1 three_pages "b.png" 20); [lia | reflexivity].
Defined.

(** X4: [store_analysis] takes any index, in range or not: the analysis
    stored is the one [get_analysis] gives back, a second store under the
    same index replaces the first, and the other entries, the pages and the
    cursor are untouched. [remove_score] evicts an entry only when its key
    is the index of a page: an analysis stored under a key out of range
    survives the call. *)
Theorem store_get_analysis (i : Z) (d d' : AnalysisData) (sm : ScoreManager) :
  get_analysis i (store_analysis i d sm) = Some d
  /\ (forall j, j <> i ->
        get_analysis j (store_analysis i d sm) = get_analysis j sm)
  /\ store_analysis i d' (store_analysis i d sm) = store_analysis i d' sm
  /\ scores (store_analysis i d sm) = scores sm
  /\ current_index (store_analysis i d sm) = current_index sm
  /\ (0 <= i < len_scores sm ->
      get_analysis i (remove_score i (store_analysis i d sm)) = None)
  /\ (~ (0 <= i < len_scores sm) ->
      get_analysis i (remove_score i (store_analysis i d sm)) = Some d).
Proof.
  unfold get_analysis, store_analysis. cbn [analyzed_pages set_analyzed_pages].
  split; [apply lookup_insert_eq |].
  split; [intros j Hj; apply lookup_insert_ne; congruence |].
  split; [unfold set_analyzed_pages; cbn; rewrite insert_insert_eq; reflexivity |].
  split; [reflexivity |]. split; [reflexivity |].
  unfold remove_score, len_scores. cbn [scores set_analyzed_pages]. split.
  - intros Hi.
    replace ((0 <=? i) && (i <? Z.of_nat (length (scores sm)))) with true by lia.
    cbn [analyzed_pages set_analyzed_pages set_scores]. apply lookup_delete_eq.
  - intros Hi.
    replace ((0 <=? i) && (i <? Z.of_nat (length (scores sm)))) with false by lia.
    cbn [analyzed_pages set_analyzed_pages]. apply lookup_insert_eq.
Qed.

Lemma store_get_analysis_witness :
  let d := page_analysis sample_env (blank 10 10) in
  get_analysis 1 (remove_score 1 (store_analysis 1 d two_pages)) = None
  /\ get_analysis 7 (remove_score 7 (store_analysis 7 d two_pages)) = Some d.
Proof.
  intros d.
  destruct (store_get_analysis 1 d d two_pages) as (_ & _ & _ & _ & _ & Hin & _).
  destruct (store_get_analysis 7 d d two_pages) as (_ & _ & _ & _ & _ & _ & Hout).
  split.
  - apply Hin. vm_compute. split; [intros H; discriminate H | reflexivity].
  - apply Hout. vm_compute. intros [_ H]. discriminate H.
Defined.

(** X5: from a cursor in range, [previous_score] undoes [next_score] and
    [next_score] undoes [previous_score]: the store is back as it was. *)
Theorem previous_next_inverse (sm : ScoreManager) :
  0 <= current_index sm < len_scores sm ->
  fst (previous_score (fst (next_score sm))) = sm
  /\ fst (next_score (fst (previous_score sm))) = sm.
Proof.
  intros Hi.
  assert (Hne : scores sm <> []).
  { unfold len_scores in Hi. destruct (scores sm); [simpl in Hi; lia | discriminate]. }
  destruct sm as [l i c a]. cbn in *.
  unfold previous_score, next_score, len_scores. cbn.
  destruct l as [|p l]; [congruence |]. cbn [fst scores set_current_index].
  unfold set_current_index, len_scores in *. cbn in *.
  split; f_equal.
  - rewrite Zminus_mod_idemp_l. replace (i + 1 - 1) with i by lia.
    apply Z.mod_small. lia.
  - rewrite Zplus_mod_idemp_l. replace (i - 1 + 1) with i by lia.
    apply Z.mod_small. lia.
Qed.

Lemma previous_next_inverse_witness :
  let sm := fst (next_score (fst (next_score three_pages))) in
  current_index (fst (next_score sm)) = 0
  /\ fst (previous_score (fst (next_score sm))) = sm.
Proof.
  intros sm. split; [reflexivity |].
  apply (previous_next_inverse sm).
  vm_compute. split; [intros H; discriminate H | reflexivity].
Defined.

(** X6: on a non-empty store [next_score] and [previous_score] never raise,
    whatever the cursor was, out of range included: they return a page of
    the store, the one under the new cursor, and the new cursor is in
    range. *)
Theorem navigation_repairs_cursor (sm : ScoreManager) :
  scores sm <> [] ->
  (exists p, snd (next_score sm) = Ok (Some p)
             /\ scores sm !! Z.to_nat (current_index (fst (next_score sm)))
                = Some p
             /\ 0 <= current_index (fst (next_score sm)) < len_scores sm)
  /\ (exists p, snd (previous_score sm) = Ok (Some p)
                /\ scores sm
                   !! Z.to_nat (current_index (fst (previous_score sm)))
                   = Some p
                /\ 0 <= current_index (fst (previous_score sm))
                   < len_scores sm).
Proof.
  intros Hne. pose proof (len_scores_pos sm Hne) as Hpos.
  split.
  - rewrite next_score_index by assumption.
    pose proof (Z.mod_pos_bound (current_index sm + 1) _ Hpos) as Hb.
    unfold next_score. destruct (scores sm) as [|p0 l] eqn:Hs; [congruence |].
    cbn [snd]. unfold get_current_score.
    cbn [scores set_current_index current_index]. rewrite Hs.
    destruct (getitem_in_range (p0 :: l)
                ((current_index sm + 1) `mod` len_scores sm)) as (x & Hx & Hl).
    { unfold len_scores in *. rewrite Hs in *. exact Hb. }
    exists x. rewrite Hx. auto.
  - rewrite previous_score_index by assumption.
    pose proof (Z.mod_pos_bound (current_index sm - 1) _ Hpos) as Hb.
    unfold previous_score. destruct (scores sm) as [|p0 l] eqn:Hs; [congruence |].
    cbn [snd]. unfold get_current_score.
    cbn [scores set_current_index current_index]. rewrite Hs.
    destruct (getitem_in_range (p0 :: l)
                ((current_index sm - 1) `mod` len_scores sm)) as (x & Hx & Hl).
    { unfold len_scores in *. rewrite Hs in *. exact Hb. }
    exists x. rewrite Hx. auto.
Qed.

Lemma navigation_repairs_cursor_witness :
  let sm := remove_score 1 (fst (next_score two_pages)) in
  get_current_score sm = Raise IndexError
  /\ exists p, snd (next_score sm) = Ok (Some p)
               /\ 0 <= current_index (fst (next_score sm)) < len_scores sm.
Proof.
  intros sm. split; [reflexivity |].
  destruct (navigation_repairs_cursor sm) as [(p & Hp & _ & Hr) _].
  { vm_compute. discriminate. }
  exists p. split; assumption.
Defined.

(** X7: [get_current_score] returns the pair [(None, None)] on the empty
    store whatever the cursor is; on a non-empty store it returns the page
    under the cursor when the cursor is in range, the page counted from the
    end when the cursor is negative and no less than [-len], and raises
    [IndexError] in every other case. *)
Theorem get_current_score_cases (sm : ScoreManager) :
  (scores sm = [] -> get_current_score sm = Ok None)
  /\ (0 <= current_index sm < len_scores sm ->
      exists p, get_current_score sm = Ok (Some p)
                /\ scores sm !! Z.to_nat (current_index sm) = Some p)
  /\ (- len_scores sm <= current_index sm < 0 ->
      exists p, get_current_score sm = Ok (Some p)
                /\ scores sm !! Z.to_nat (len_scores sm + current_index sm)
                   = Some p)
  /\ (scores sm <> [] ->
      len_scores sm <= current_index sm \/ current_index sm < - len_scores sm ->
      get_current_score sm = Raise IndexError).
Proof.
  unfold get_current_score, len_scores.
  split; [intros ->; reflexivity |].
  split; [| split].
  - intros Hi. destruct (getitem_in_range (scores sm) _ Hi) as (p & Hp & Hl).
    exists p. rewrite Hp. destruct (scores sm); [simpl in Hi; lia | auto].
  - intros Hi. unfold getitem.
    replace (current_index sm <? 0) with true by lia.
    set (n := Z.of_nat (length (scores sm))) in *.
    replace ((0 <=? current_index sm + n) && (current_index sm + n <? n))
      with true by lia.
    destruct (scores sm !! Z.to_nat (current_index sm + n)) as [p|] eqn:Hp.
    + exists p. replace (n + current_index sm) with (current_index sm + n) by lia.
      destruct (scores sm); [subst n; simpl in Hi; lia | auto].
    + apply lookup_ge_None in Hp. subst n. lia.
  - intros Hne Hi. destruct (scores sm) as [|p0 l] eqn:Hs; [congruence |].
    unfold getitem. set (n := Z.of_nat (length (p0 :: l))) in *.
    destruct (current_index sm <? 0) eqn:Hneg.
    + replace ((0 <=? current_index sm + n) && (current_index sm + n <? n))
        with false by lia.
      reflexivity.
    + replace ((0 <=? current_index sm) && (current_index sm <? n))
        with false by lia.
      reflexivity.
Qed.

Lemma get_current_score_cases_witness :
  get_current_score (set_current_index 5 init) = Ok None
  /\ get_current_score two_pages = Ok (Some ("a.png"%string, 10%Q))
  /\ get_current_score (set_current_index (-1) two_pages)
     = Ok (Some ("b.png"%string, 20%Q))
  /\ get_current_score (set_current_index 2 two_pages) = Raise IndexError.
Proof.
  destruct (get_current_score_cases (set_current_index 5 init)) as (He & _).
  destruct (get_current_score_cases (set_current_index 2 two_pages))
    as (_ & _ & _ & Hr).
  split; [apply He; reflexivity |].
  split; [reflexivity |]. split; [reflexivity |].
  apply Hr; [vm_compute; discriminate |].
  left. vm_compute. intros H. discriminate H.
Defined.

Lemma remove_score_len (i : Z) (sm : ScoreManager) :
  0 <= i < len_scores sm ->
  len_scores (remove_score i sm) = len_scores sm - 1.
Proof.
  intros Hi. unfold remove_score.
  replace ((0 <=? i) && (i <? len_scores sm)) with true by lia.
  unfold len_scores in *. cbn [scores set_scores set_analyzed_pages].
  rewrite length_delete; [lia |]. apply lookup_lt_is_Some. lia.
Qed.

(** X8: removing a page of a store whose cursor is in range leaves the
    cursor in range exactly when the cursor was not on the last page, or
    the store had that one page only. The cursor keeps its value, so that
    after the removal of a page at or before it the cursor names the page
    that followed the one it named. *)
Theorem remove_score_cursor (i : Z) (sm : ScoreManager) :
  0 <= i < len_scores sm ->
  0 <= current_index sm < len_scores sm ->
  (cursor_ok (remove_score i sm)
   <-> current_index sm < len_scores sm - 1 \/ len_scores sm = 1)
  /\ (current_index sm < i ->
      scores (remove_score i sm) !! Z.to_nat (current_index sm)
      = scores sm !! Z.to_nat (current_index sm))
  /\ (i <= current_index sm ->
      scores (remove_score i sm) !! Z.to_nat (current_index sm)
      = scores sm !! Z.to_nat (current_index sm + 1)).
Proof.
  intros Hi Hc. pose proof (remove_score_len i sm Hi) as Hlen.
  assert (Hidx : current_index (remove_score i sm) = current_index sm).
  { unfold remove_score.
    replace ((0 <=? i) && (i <? len_scores sm)) with true by lia. reflexivity. }
  assert (Hs : scores (remove_score i sm) = delete (Z.to_nat i) (scores sm)).
  { unfold remove_score.
    replace ((0 <=? i) && (i <? len_scores sm)) with true by lia. reflexivity. }
  split; [| split].
  - unfold cursor_ok. rewrite Hidx, Hlen. split.
    + intros H. destruct (Z.eq_dec (len_scores sm) 1) as [H1 | H1]; [auto |].
      left. apply H. intros Hnil. unfold len_scores in Hlen at 1.
      rewrite Hnil in Hlen. simpl in Hlen. lia.
    + intros [H | H] Hne; [lia |]. exfalso. apply Hne.
      unfold len_scores in Hlen at 1.
      destruct (scores (remove_score i sm)); [reflexivity | simpl in Hlen; lia].
  - intros Hlt. rewrite Hs. apply list_lookup_delete_lt. lia.
  - intros Hle. rewrite Hs, list_lookup_delete_ge by lia.
    f_equal. lia.
Qed.

Lemma remove_score_cursor_witness :
  let sm := fst (next_score three_pages) in
  cursor_ok (remove_score 0 sm)
  /\ scores sm !! 1%nat = Some ("b.png"%string, 20%Q)
  /\ scores (remove_score 0 sm) !! 1%nat = Some ("c.png"%string, 30%Q).
Proof.
  intros sm.
  destruct (remove_score_cursor 0 sm) as [Hok _].
  - vm_compute. split; [intros H; discriminate H | reflexivity].
  - vm_compute. split; [intros H; discriminate H | reflexivity].
  - split; [| split; reflexivity].
    apply Hok. left. reflexivity.
Defined.

(** ** More on the feature extractor *)

Lemma py_min_in (l : list Q) : forall x, In (py_min x l) (x :: l).
Proof.
  unfold py_min. induction l as [|y l IH]; intros x; cbn [fold_left].
  - left. reflexivity.
  - destruct (Qle_bool x y).
    + destruct (IH x) as [H | H]; [left; exact H | right; right; exact H].
    + right. apply IH.
Qed.

Lemma py_max_in (l : list Q) : forall x, In (py_max x l) (x :: l).
Proof.
  unfold py_max. induction l as [|y l IH]; intros x; cbn [fold_left].
  - left. reflexivity.
  - destruct (Qle_bool y x).
    + destruct (IH x) as [H | H]; [left; exact H | right; right; exact H].
    + right. apply IH.
Qed.

(** X9: for every image, the count [analyze_image] returns is the number of
    sizes and the number of positions it returns; the statistics do not
    depend on the display image the keypoints are drawn on; and when there
    is a keypoint, [min_size] and [max_size] are sizes of keypoints that
    bound the size of every keypoint, and the proximity is a number. *)
Theorem analysis_consistent (E : Env) (image display_image : Image) :
  let r := fst (analyze_image E image display_image) in
  object_count r = Z.of_nat (length (sizes r))
  /\ length (positions r) = length (sizes r)
  /\ (forall other, fst (analyze_image E image other) = r)
  /\ (sizes r <> [] ->
      exists mn mx d,
        min_size r = Float (Fin mn) /\ max_size r = Float (Fin mx)
        /\ In mn (sizes r) /\ In mx (sizes r)
        /\ Forall (fun s => (mn <= s)%Q /\ (s <= mx)%Q) (sizes r)
        /\ proximity r = Fin d).
Proof.
  unfold analyze_image. cbn [fst object_count sizes positions min_size max_size proximity].
  split; [rewrite length_map; reflexivity |].
  split; [rewrite !length_map; reflexivity |].
  split; [reflexivity |].
  destruct (detectAndCompute E image) as [|kp kps];
    [intros H; exfalso; apply H; reflexivity |].
  intros _. cbn [map].
  eexists _, _, _. split; [reflexivity |]. split; [reflexivity |].
  split; [apply py_min_in |]. split; [apply py_max_in |].
  split; [| reflexivity].
  destruct (py_min_le (map size kps) (size kp)) as [Hm1 Hm2].
  destruct (py_max_ge (map size kps) (size kp)) as [HM1 HM2].
  constructor; [split; assumption |].
  apply List.Forall_forall. intros s Hs.
  rewrite List.Forall_forall in Hm2, HM2. split; auto.
Qed.

Lemma analysis_consistent_witness :
  let r := fst (analyze_image sample_env (blank 848 60) (blank 848 60)) in
  object_count r = 2
  /\ exists mn mx d,
       min_size r = Float (Fin mn) /\ max_size r = Float (Fin mx)
       /\ In mn (sizes r) /\ In mx (sizes r)
       /\ Forall (fun s => (mn <= s)%Q /\ (s <= mx)%Q) (sizes r)
       /\ proximity r = Fin d.
Proof.
  intros r. split; [reflexivity |].
  apply (analysis_consistent sample_env (blank 848 60) (blank 848 60)).
  vm_compute. discriminate.
Defined.

(** ** More on the analysis of all pages *)

Lemma page_analysis_fields E raw :
  a_original_image (page_analysis E raw) = resize E raw 1424 848
  /\ a_object_count (page_analysis E raw)
     = object_count (fst (analyze_image E (resize E raw 1424 848)
                            (resize E raw 1424 848))).
Proof. unfold page_analysis, analyze_image. split; reflexivity. Qed.

Lemma analyze_pages_step E i path d l sm raw :
  imread E path = Some raw ->
  analyze_pages_from E i ((path, d) :: l) sm
  = analyze_pages_from E (i + 1) l (store_analysis i (page_analysis E raw) sm).
Proof.
  intros H. cbn [analyze_pages_from]. rewrite H. unfold page_analysis.
  destruct (analyze_image E _ _). reflexivity.
Qed.

Lemma analyze_pages_ok E l :
  forall i sm,
    Forall (readable E) l ->
    exists sm',
      analyze_pages_from E i l sm = (sm', Ok tt)
      /\ scores sm' = scores sm /\ current_index sm' = current_index sm
      /\ (forall (k : nat) path d raw,
            l !! k = Some (path, d) -> imread E path = Some raw ->
            get_analysis (i + Z.of_nat k) sm' = Some (page_analysis E raw))
      /\ (forall j, ~ (i <= j < i + Z.of_nat (length l)) ->
            get_analysis j sm' = get_analysis j sm).
Proof.
  induction l as [|[path d] l IH]; intros i sm Hl.
  - exists sm. cbn. repeat split; try reflexivity. intros k ? ? ? H. discriminate H.
  - apply Forall_cons in Hl as [Hp Hl]. unfold readable in Hp. cbn [fst] in Hp.
    destruct (imread E path) as [raw|] eqn:Hraw; [| congruence].
    rewrite (analyze_pages_step E i path d l sm raw Hraw).
    destruct (IH (i + 1) (store_analysis i (page_analysis E raw) sm) Hl)
      as (sm' & Hrun & Hs & Hc & Hin & Hout).
    exists sm'. split; [exact Hrun |]. split; [exact Hs |]. split; [exact Hc |].
    split.
    + intros [|k] path' d' raw' Hk Hraw'.
      * cbn in Hk. injection Hk as <- <-. rewrite Hraw in Hraw'.
        injection Hraw' as <-. rewrite Hout by lia.
        replace (i + Z.of_nat 0) with i by lia.
        unfold get_analysis, store_analysis. cbn. apply lookup_insert_eq.
      * cbn in Hk. replace (i + Z.of_nat (S k)) with (i + 1 + Z.of_nat k) by lia.
        eapply Hin; eassumption.
    + intros j Hj. cbn [length] in Hj. rewrite Hout by lia.
      unfold get_analysis, store_analysis. cbn.
      apply lookup_insert_ne. lia.
Qed.

Lemma analyze_pages_fail E l :
  forall i sm,
    ~ Forall (readable E) l ->
    snd (analyze_pages_from E i l sm) = Raise CvError.
Proof.
  induction l as [|[path d] l IH]; intros i sm Hl.
  - exfalso. apply Hl. constructor.
  - cbn [analyze_pages_from]. destruct (imread E path) as [raw|] eqn:Hraw;
      [| reflexivity].
    destruct (analyze_image E _ _). apply IH. intros H. apply Hl.
    constructor; [| exact H]. unfold readable. cbn. congruence.
Qed.

Lemma analyze_pages_scores E l :
  forall i sm,
    scores (fst (analyze_pages_from E i l sm)) = scores sm
    /\ current_index (fst (analyze_pages_from E i l sm)) = current_index sm.
Proof.
  induction l as [|[path d] l IH]; intros i sm; cbn [analyze_pages_from].
  - auto.
  - destruct (imread E path); [| auto].
    destruct (analyze_image E _ _) as [r display].
    edestruct IH as [H1 H2]. rewrite H1, H2. split; reflexivity.
Qed.

(** X10: when the file of every page can be read, [analyze_all_pages]
    succeeds, keeps the pages and the cursor, and leaves under every page
    index the analysis of the raster of that page resized to 1424 x 848:
    the cached count is the count [analyze_image] returns on that raster.
    Entries under keys that are no page index are kept. When the file of
    some page cannot be read the call raises, and the pages and the cursor
    are still as they were. *)
Theorem analyze_all_pages_caches (E : Env) (sm : ScoreManager) :
  (Forall (readable E) (scores sm) ->
   exists sm',
     analyze_all_pages E sm = (sm', Ok tt)
     /\ scores sm' = scores sm /\ current_index sm' = current_index sm
     /\ (forall (k : nat) path d raw,
           scores sm !! k = Some (path, d) -> imread E path = Some raw ->
           exists a,
             get_analysis (Z.of_nat k) sm' = Some a
             /\ a_original_image a = resize E raw 1424 848
             /\ a_object_count a
                = object_count
                    (fst (analyze_image E (resize E raw 1424 848)
                            (resize E raw 1424 848))))
     /\ (forall j, ~ (0 <= j < len_scores sm) ->
           get_analysis j sm' = get_analysis j sm))
  /\ (~ Forall (readable E) (scores sm) ->
      snd (analyze_all_pages E sm) = Raise CvError
      /\ scores (fst (analyze_all_pages E sm)) = scores sm
      /\ current_index (fst (analyze_all_pages E sm)) = current_index sm).
Proof.
  unfold analyze_all_pages. split.
  - intros Hl.
    destruct (analyze_pages_ok E (scores sm) 0 sm Hl)
      as (sm' & Hrun & Hs & Hc & Hin & Hout).
    exists sm'. repeat (split; [assumption |]). split.
    + intros k path d raw Hk Hraw. exists (page_analysis E raw).
      split; [apply (Hin k path d raw Hk Hraw) |].
      unfold page_analysis. destruct (analyze_image E _ _) eqn:Ha.
      split; reflexivity.
    + intros j Hj. apply Hout. unfold len_scores in Hj. lia.
  - intros Hl. split; [apply analyze_pages_fail, Hl |].
    apply analyze_pages_scores.
Qed.

Lemma analyze_all_pages_caches_witness :
  (exists sm' a,
     analyze_all_pages sample_env two_pages = (sm', Ok tt)
     /\ get_analysis 1 sm' = Some a /\ a_object_count a = 0)
  /\ snd (analyze_all_pages sample_env (add_score "missing.png" 5 two_pages))
     = Raise CvError.
Proof.
  destruct (analyze_all_pages_caches sample_env two_pages) as [Hok _].
  destruct (analyze_all_pages_caches sample_env
              (add_score "missing.png" 5 two_pages)) as [_ Hfail].
  split.
  - destruct Hok as (sm' & Hrun & _ & _ & Hin & _).
    { repeat constructor; discriminate. }
    destruct (Hin 1%nat "b.png"%string 20%Q (blank 10 10) eq_refl eq_refl)
      as (a & Ha & _ & Hcount).
    exists sm', a. split; [exact Hrun |]. split; [exact Ha | exact Hcount].
  - apply Hfail. intros H. apply Forall_cons in H as [_ H].
    apply Forall_cons in H as [_ H]. apply Forall_cons in H as [H _].
    apply H. reflexivity.
Defined.

(** ** More on the session controller *)

(** X11: a call of [main] on a file that cannot be read returns at once,
    the store and the log as they were. On a file that can be read, with a
    score manager, [main] enters its display loop showing what the cache
    holds under the cursor: an analysis cached there before is used as it
    is, raster included, whatever the file holds, and no cached analysis
    is ever replaced; only when none is cached there, the analysis of the
    resized raster is stored under the cursor. *)
Theorem enter_main_cache (E : Env) (path : string) (d : Q)
  (m : ScoreManager) (auto : bool) (log : list event) :
  (imread E path = None ->
   enter_main E path d (Some m) auto log = Returned (Some m) log)
  /\ (forall raw, imread E path = Some raw ->
      exists f m' a,
        enter_main E path d (Some m) auto log = Running f
        /\ score_manager f = Some m'
        /\ get_analysis (current_index m) m' = Some a
        /\ image (page f) = a_original_image a
        /\ keypoints_image (page f) = a_keypoints_image a
        /\ page_object_count (page f) = a_object_count a
        /\ page_proximity (page f) = a_proximity a
        /\ (forall j b, get_analysis j m = Some b ->
              get_analysis j m' = Some b)
        /\ (forall j, j <> current_index m ->
              get_analysis j m' = get_analysis j m)
        /\ (get_analysis (current_index m) m = None ->
            a = page_analysis E raw)).
Proof.
  unfold enter_main. split; [intros ->; reflexivity |].
  intros raw ->.
  destruct (get_analysis (current_index m) m) as [a|] eqn:Ha.
  - eexists. exists m, a. split; [reflexivity |]. cbn.
    split; [reflexivity |]. split; [exact Ha |].
    repeat (split; [reflexivity |]).
    split; [auto |]. split; [auto | discriminate].
  - unfold page_analysis.
    destruct (analyze_image E _ _) as [r display] eqn:Hr.
    eexists _, _, _. split; [reflexivity |]. cbn [score_manager page image
      keypoints_image page_object_count page_proximity].
    split; [reflexivity |].
    split; [unfold get_analysis, store_analysis; cbn; apply lookup_insert_eq |].
    cbn. repeat (split; [reflexivity |]).
    split; [| split; [| reflexivity]].
    + intros j b Hb. unfold get_analysis, store_analysis in *. cbn.
      rewrite lookup_insert_ne; [exact Hb |]. intros <-. congruence.
    + intros j Hj. unfold get_analysis, store_analysis. cbn.
      apply lookup_insert_ne. congruence.
Qed.

Lemma enter_main_cache_witness :
  enter_main sample_env "missing.png" 10 (Some two_pages) false []
  = Returned (Some two_pages) []
  /\ exists f m' a,
       enter_main sample_env "a.png" 10 (Some two_pages) false [] = Running f
       /\ score_manager f = Some m'
       /\ get_analysis 0 m' = Some a
       /\ image (page f) = a_original_image a.
Proof.
  destruct (enter_main_cache sample_env "missing.png" 10 two_pages false [])
    as [Hfail _].
  destruct (enter_main_cache sample_env "a.png" 10 two_pages false [])
    as [_ Hok].
  split; [apply Hfail; reflexivity |].
  destruct (Hok (blank 10 10) eq_refl) as (f & m' & a & H1 & H2 & H3 & H4 & _).
  exists f, m', a. auto.
Defined.

(** X12: key ['a'] in the display loop, with a score manager all of whose
    files can be read and with the page shown being page [k]: every page is
    analysed anew, one message is sent, to [/image/object_count], carrying
    the count [analyze_image] returns on the resized raster of page [k],
    and that raster becomes the image shown. When some file cannot be read
    the call of [main] ends with the exception and nothing is sent. *)
Theorem static_analysis_sends_count (E : Env) (f : Frame) (sm : ScoreManager) :
  score_manager f = Some sm ->
  (forall (k : nat) path d raw,
     Forall (readable E) (scores sm) ->
     current_page (page f) = Z.of_nat k ->
     scores sm !! k = Some (path, d) -> imread E path = Some raw ->
     let R := resize E raw 1424 848 in
     let n := object_count (fst (analyze_image E R R)) in
     exists f',
       static_analysis E f = Running f'
       /\ out f' = out f ++ [SendMessage "/image/object_count" (Int n)]
       /\ image (page f') = R /\ page_object_count (page f') = n
       /\ pc f' = pc f /\ scan f' = scan f
       /\ duration (page f') = duration (page f))
  /\ (~ Forall (readable E) (scores sm) ->
      exists sm', static_analysis E f = Raised CvError (Some sm') (out f)).
Proof.
  intros Hsm. split.
  - intros k path d raw Hl Hk Hp Hraw. cbv zeta.
    unfold static_analysis. rewrite Hsm.
    destruct (analyze_pages_ok E (scores sm) 0 sm Hl)
      as (sm' & Hrun & _ & _ & Hin & _).
    unfold analyze_all_pages. rewrite Hrun.
    rewrite Hk. specialize (Hin k path d raw Hp Hraw).
    replace (0 + Z.of_nat k) with (Z.of_nat k) in Hin by lia. rewrite Hin.
    destruct (page_analysis_fields E raw) as [Himg Hcount].
    eexists. split; [reflexivity |]. cbn -[page_analysis analyze_image].
    rewrite Himg, Hcount. auto 10.
  - intros Hl. unfold static_analysis. rewrite Hsm. pose proof (analyze_pages_fail E (scores sm) 0 sm Hl) as Hf.
    unfold analyze_all_pages.
    destruct (analyze_pages_from E 0 (scores sm) sm) as [sm' res].
    cbn in Hf. subst res. exists sm'. reflexivity.
Qed.

Lemma static_analysis_sends_count_witness :
  exists f',
    static_analysis sample_env sample_frame = Running f'
    /\ out f' = [SendMessage "/image/object_count" (Int 0)]
    /\ shape1 (image (page f')) = 1424.
Proof.
  assert (Hsm : exists sm, score_manager sample_frame = Some sm
                           /\ scores sm = scores two_pages).
  { eexists. split; reflexivity. }
  destruct Hsm as (sm & Hsm & Hscores).
  destruct (static_analysis_sends_count sample_env sample_frame sm Hsm)
    as [Hok _].
  destruct (Hok 0%nat "a.png"%string 10%Q (blank 10 10))
    as (f' & Hrun & Hout & Himg & _).
  - rewrite Hscores. repeat constructor; discriminate.
  - reflexivity.
  - rewrite Hscores. reflexivity.
  - reflexivity.
  - exists f'. split; [exact Hrun |]. split; [exact Hout |].
    rewrite Himg. reflexivity.
Defined.

(** X13: whenever a turn of the inner loop is about to run, in a state
    [main] reaches from its display loop, the scan window lies within the
    page: its right edge is no further than the page width, so that the
    slice of the image that is analysed is exactly [scan_width] columns
    wide, of full height, and holds the columns of the page from the
    current offset on. *)
Theorem scan_window_fits (E : Env) (f0 : Frame) (fuel : nat) (keys : list Z)
  (f : Frame) (rest : list Z) :
  pc f0 = Display ->
  run E fuel (Running f0) keys = (Running f, rest) ->
  pc f = ScanLoop -> in_scan f = true ->
  let x := current_position (scan f) in
  let img := image (page f) in
  0 <= x /\ x + scan_width <= shape1 img
  /\ shape1 (col_slice img x (x + scan_width)) = scan_width
  /\ shape0 (col_slice img x (x + scan_width)) = shape0 img
  /\ forall r c, data (col_slice img x (x + scan_width)) r c
                 = data img r (c + x).
Proof.
  intros Hpc Hrun Hloop Hin x img.
  pose proof (run_steps_match E fuel f0 keys Hpc) as Hinv.
  rewrite Hrun in Hinv. cbn in Hinv. specialize (Hinv Hloop).
  pose proof (in_scan_range f Hin) as Hr. rewrite Hinv in Hr.
  fold x img in Hr. unfold scan_width in *.
  split; [lia |]. split; [lia |]. unfold col_slice. cbn.
  split; [lia |]. split; [reflexivity |].
  intros r c. f_equal. lia.
Qed.

Lemma scan_window_fits_witness :
  let r := run sample_env 4 (Running sample_frame) [98; -1; -1] in
  let f := frame_of sample_frame (fst r) in
  current_position (scan f) = 2
  /\ shape1 (col_slice (image (page f)) 2 (2 + scan_width)) = scan_width.
Proof.
  intros r f. split; [reflexivity |].
  assert (Hrun : run sample_env 4 (Running sample_frame) [98; -1; -1]
                 = (Running f, snd r)).
  { vm_compute. reflexivity. }
  apply (scan_window_fits sample_env sample_frame 4 [98; -1; -1] f (snd r)
           eq_refl Hrun eq_refl eq_refl).
Defined.

Lemma display_b E f raw keys :
  pc f = Display -> Z.land raw 255 = key_b ->
  step E (Running f) (raw :: keys)
  = (Running (set_pc ScanSetup (set_scanning true f)), keys).
Proof.
  intros Hpc Hraw. unfold step, awaits_key, on_key. rewrite Hpc, Hraw.
  reflexivity.
Qed.

(** X14: key ['b'] in the display loop of a page at least as wide as the
    window starts a scan: after two transitions [main] is in the inner
    loop with [num_steps = width - scan_width + 1], at the offset [0] when
    the direction is forward and at [num_steps - 1] when it is reverse,
    and in both cases the first turn of the loop is due; nothing was drawn
    or sent, and the page and the store are as they were. *)
Theorem scan_start (E : Env) (f : Frame) (raw : Z) (keys : list Z) :
  pc f = Display -> Z.land raw 255 = key_b ->
  scan_width <= shape1 (image (page f)) ->
  let n := shape1 (image (page f)) - scan_width + 1 in
  exists f',
    run E 2 (Running f) (raw :: keys) = (Running f', keys)
    /\ pc f' = ScanLoop /\ in_scan f' = true
    /\ num_steps (scan f') = n
    /\ current_position (scan f')
       = (if reverse_scan (scan f) then n - 1 else 0)
    /\ reverse_scan (scan f') = reverse_scan (scan f)
    /\ page f' = page f /\ score_manager f' = score_manager f
    /\ out f' = out f.
Proof.
  intros Hpc Hraw Hw n.
  destruct (scan_setup_running (set_pc ScanSetup (set_scanning true f)))
    as (f' & Hf' & Hl & Hp & Hsm & Ho & Hs & Hrev & Hn & Hpos).
  { reflexivity. }
  { cbn. lia. }
  cbn in Hp, Hsm, Ho, Hrev, Hn, Hpos.
  exists f'. split.
  { cbn [run]. rewrite (display_b E f raw keys Hpc Hraw).
    unfold step, awaits_key, internal. cbn [pc set_pc]. rewrite Hf'.
    reflexivity. }
  split; [exact Hl |]. split.
  { unfold in_scan. rewrite Hs, Hn, Hpos. cbn [andb].
    destruct (reverse_scan (scan f)); apply andb_true_iff; lia. }
  split; [exact Hn |]. split.
  { rewrite Hpos. subst n. destruct (reverse_scan (scan f)); lia. }
  auto.
Qed.

Lemma scan_start_witness :
  exists f',
    run sample_env 2 (Running sample_frame) [98] = (Running f', [])
    /\ pc f' = ScanLoop /\ in_scan f' = true
    /\ num_steps (scan f') = 1365 /\ current_position (scan f') = 0.
Proof.
  destruct (scan_start sample_env sample_frame 98 [] eq_refl eq_refl)
    as (f' & Hrun & Hpc & Hin & Hn & Hpos & _).
  { vm_compute. intros H. discriminate H. }
  exists f'. repeat (split; [assumption |]). exact Hpos.
Defined.

Lemma scan_turn E f raw keys :
  pc f = ScanLoop -> in_scan f = true ->
  step E (Running f) (raw :: keys) = (scan_key E (Z.land raw 255) f, keys).
Proof.
  intros Hpc Hin. unfold step, awaits_key, on_key. rewrite Hpc, Hin.
  reflexivity.
Qed.

(** A forward scan on keys that neither reverse nor cancel it: one window
    per key, at consecutive offsets. *)
Lemma forward_scan_run E :
  forall keys f rest,
    pc f = ScanLoop -> scanning (scan f) = true ->
    reverse_scan (scan f) = false ->
    0 <= current_position (scan f) ->
    current_position (scan f) + Z.of_nat (length keys) <= num_steps (scan f) ->
    Forall (fun raw => Z.land raw 255 <> key_r /\ Z.land raw 255 <> key_esc)
      keys ->
    exists f',
      run E (length keys) (Running f) (keys ++ rest) = (Running f', rest)
      /\ pc f' = ScanLoop /\ scanning (scan f') = true
      /\ reverse_scan (scan f') = false
      /\ current_position (scan f')
         = current_position (scan f) + Z.of_nat (length keys)
      /\ num_steps (scan f') = num_steps (scan f)
      /\ page f' = page f /\ score_manager f' = score_manager f
      /\ offsets (out f')
         = offsets (out f)
           ++ seqZ (current_position (scan f)) (Z.of_nat (length keys))
      /\ length (out f') = (length (out f) + 5 * length keys)%nat.
Proof.
  induction keys as [|raw keys IH]; intros f rest Hpc Hs Hrev H0 Hn Hk.
  - exists f. cbn. rewrite Z.add_0_r, app_nil_r, Nat.add_0_r. auto 10.
  - apply Forall_cons in Hk as [[Hr He] Hk]. cbn [length] in Hn.
    assert (Hin : in_scan f = true).
    { unfold in_scan. rewrite Hs. cbn. apply andb_true_iff. lia. }
    destruct (scan_key_step E _ f He)
      as (f1 & Hf1 & Hpc1 & Hp1 & Hsm1 & Hrev1 & Hpos1 & Hs1 & Hn1 & Ho1 & r & Hout1).
    replace (Z.land raw 255 =? key_r) with false in Hrev1, Hpos1 by lia.
    assert (Hrev1' : reverse_scan (scan f1) = false).
    { rewrite Hrev1. destruct (_ =? key_f); [reflexivity | exact Hrev]. }
    rewrite <- Hrev1, Hrev1' in Hpos1.
    destruct (IH f1 rest) as (f' & Hrun & Hpc' & Hs' & Hrev' & Hpos' & Hn' & Hp' & Hsm' & Ho' & Hlen');
      try congruence; try lia; try assumption.
    exists f'. split.
    { cbn [length run app]. rewrite (scan_turn E f raw _ Hpc Hin), Hf1.
      exact Hrun. }
    split; [exact Hpc' |]. split; [exact Hs' |]. split; [exact Hrev' |].
    split; [cbn [length]; lia |]. split; [congruence |].
    split; [congruence |]. split; [congruence |]. split.
    + rewrite Ho', Ho1, Hpos1, <- app_assoc. cbn [app length].
      rewrite (seqZ_cons (current_position (scan f))) by lia.
      repeat f_equal; lia.
    + rewrite Hlen', Hout1, length_app. cbn [length]. lia.
Qed.

(** X15: a scan that is left alone runs to its end. From the display loop
    of a page at least as wide as the window, with the forward direction,
    key ['b'] followed by [num_steps] keys that neither reverse nor cancel
    the scan makes exactly [num_steps] turns: the windows drawn are those
    at the offsets [0, 1, ..., num_steps - 1] in this order, five events
    are logged per turn, and the offset ends at [num_steps], where the
    inner loop makes no further turn. *)
Theorem forward_scan_visits_all (E : Env) (f : Frame) (raw : Z)
  (keys rest : list Z) :
  pc f = Display -> reverse_scan (scan f) = false ->
  Z.land raw 255 = key_b ->
  scan_width <= shape1 (image (page f)) ->
  Z.of_nat (length keys) = shape1 (image (page f)) - scan_width + 1 ->
  Forall (fun raw => Z.land raw 255 <> key_r /\ Z.land raw 255 <> key_esc)
    keys ->
  exists f',
    run E (2 + length keys) (Running f) (raw :: keys ++ rest)
    = (Running f', rest)
    /\ pc f' = ScanLoop /\ in_scan f' = false
    /\ current_position (scan f') = num_steps (scan f')
    /\ num_steps (scan f') = Z.of_nat (length keys)
    /\ offsets (out f')
       = offsets (out f) ++ seqZ 0 (Z.of_nat (length keys))
    /\ length (out f') = (length (out f) + 5 * length keys)%nat
    /\ page f' = page f /\ score_manager f' = score_manager f.
Proof.
  intros Hpc Hrev Hraw Hw Hlen Hkeys.
  destruct (scan_setup_running (set_pc ScanSetup (set_scanning true f)))
    as (f1 & Hf1 & Hpc1 & Hp1 & Hsm1 & Ho1 & Hs1 & Hrev1 & Hn1 & Hpos1).
  { reflexivity. }
  { cbn. lia. }
  cbn in Hp1, Hsm1, Ho1, Hrev1, Hn1, Hpos1. rewrite Hrev in Hrev1, Hpos1.
  destruct (forward_scan_run E keys f1 rest)
    as (f' & Hrun & Hpc' & Hs' & Hrev' & Hpos' & Hn' & Hp' & Hsm' & Ho' & Hlen');
    try assumption; try lia.
  exists f'. split.
  { change (2 + length keys)%nat with (S (S (length keys))).
    cbn [run]. rewrite (display_b E f raw _ Hpc Hraw).
    unfold step at 1, awaits_key, internal. cbn [pc set_pc]. rewrite Hf1.
    exact Hrun. }
  split; [exact Hpc' |]. split.
  { unfold in_scan. rewrite Hs', Hpos', Hn', Hpos1. cbn [andb].
    apply andb_false_iff. right. lia. }
  split; [lia |]. split; [lia |]. split.
  { rewrite Ho', Ho1, Hpos1. reflexivity. }
  split; [rewrite Hlen', Ho1; reflexivity |].
  split; congruence.
Qed.

Lemma forward_scan_visits_all_witness :
  exists f',
    run sample_env (2 + 1365) (Running sample_frame) (98 :: repeat (-1) 1365 ++ [])
    = (Running f', [])
    /\ in_scan f' = false
    /\ offsets (out f') = seqZ 0 1365
    /\ length (out f') = (5 * 1365)%nat.
Proof.
  destruct (forward_scan_visits_all sample_env sample_frame 98
              (repeat (-1) 1365) [] eq_refl eq_refl eq_refl)
    as (f' & Hrun & _ & Hin & _ & _ & Ho & Hlen & _).
  - vm_compute. intros H. discriminate H.
  - rewrite repeat_length. reflexivity.
  - apply List.Forall_forall. intros x Hx. apply repeat_spec in Hx. subst x.
    split; discriminate.
  - rewrite repeat_length in *. exists f'.
    split; [exact Hrun |]. split; [exact Hin |]. split; [exact Ho | exact Hlen].
Defined.

(** X16: [ESC] read in the inner loop cancels the scan without a turn:
    after three transitions [main] is back in the display loop of the same
    page, not scanning, with the offset and the direction the scan had;
    nothing is drawn or sent, and the store is not moved to the next page
    even when there is one. [main] itself goes on: it returns only when
    [ESC] is read once more, in the display loop. *)
Theorem scan_cancel (E : Env) (f : Frame) (raw raw' : Z) (keys : list Z) :
  pc f = ScanLoop -> in_scan f = true ->
  Z.land raw 255 = key_esc -> Z.land raw' 255 = key_esc ->
  run E 3 (Running f) (raw :: keys)
  = (Running (set_pc Display (set_scanning false f)), keys)
  /\ run E 4 (Running f) (raw :: raw' :: keys)
     = (Returned (score_manager f) (out f), keys).
Proof.
  intros Hpc Hin Hraw Hraw'.
  assert (H3 : forall ks,
             run E 3 (Running f) (raw :: ks)
             = (Running (set_pc Display (set_scanning false f)), ks)).
  { intros ks. cbn [run]. rewrite (scan_turn E f raw ks Hpc Hin), Hraw.
    rewrite scan_key_cancel.
    unfold step, awaits_key, internal. cbn [pc set_pc]. unfold scan_end.
    cbn [score_manager set_pc set_scanning set_scan scan scanning].
    destruct (score_manager f) as [sm|]; cbn [andb pc set_pc];
      unfold scan_setup; reflexivity. }
  split; [apply H3 |].
  change 4%nat with (3 + 1)%nat.
  assert (Hsplit : forall n s ks, run E (n + 1) s ks
                   = let '(s', r) := run E n s ks in step E s' r).
  { induction n as [|n IH]; intros s ks.
    - cbn. destruct (step E s ks). reflexivity.
    - cbn [run Nat.add]. destruct (step E s ks) as [s1 r1]. apply IH. }
  rewrite Hsplit, H3. unfold step, awaits_key, on_key. cbn [pc set_pc].
  rewrite Hraw'. reflexivity.
Qed.

Lemma scan_cancel_witness :
  let f := frame_of sample_frame
             (fst (run sample_env 3 (Running sample_frame) [98; -1])) in
  current_position (scan f) = 1
  /\ run sample_env 3 (Running f) [27]
     = (Running (set_pc Display (set_scanning false f)), []).
Proof.
  intros f. split; [reflexivity |].
  apply (scan_cancel sample_env f 27 27 [] eq_refl eq_refl eq_refl eq_refl).
Defined.

Lemma static_analysis_log E f :
  exists new,
    log_of (static_analysis E f) = out f ++ new /\ Forall event_ok new.
Proof.
  unfold static_analysis. destruct (score_manager f) as [sm|].
  - destruct (analyze_all_pages E sm) as [sm' [[]|e]];
      [| exists []; rewrite app_nil_r; split; [reflexivity | constructor]].
    destruct (get_analysis _ sm');
      [| exists []; rewrite app_nil_r; split; [reflexivity | constructor]].
    eexists. split; [reflexivity |]. repeat constructor.
  - destruct (analyze_image E _ _). eexists. split; [reflexivity |].
    repeat constructor.
Qed.

Lemma step_log E s keys :
  exists new,
    log_of (fst (step E s keys)) = log_of s ++ new /\ Forall event_ok new.
Proof.
  assert (Hnil : forall l : list event, exists new,
             l = l ++ new /\ Forall event_ok new).
  { intros l. exists []. rewrite app_nil_r. split; [reflexivity | constructor]. }
  destruct s as [f | |]; [| apply Hnil | apply Hnil].
  unfold step. destruct (awaits_key f).
  - destruct keys as [|raw rest]; [apply Hnil |].
    cbn [fst log_of]. unfold on_key. destruct (pc f); try apply Hnil.
    + unfold display_key.
      destruct (_ =? key_a); [apply static_analysis_log |].
      destruct (_ =? key_n).
      { destruct (score_manager f); [rewrite goto_page_log |]; apply Hnil. }
      destruct (_ =? key_p).
      { destruct (score_manager f); [rewrite goto_page_log |]; apply Hnil. }
      destruct (_ =? key_b); [apply Hnil |].
      destruct (_ =? key_esc); apply Hnil.
    + destruct (Z.eq_dec (Z.land raw 255) key_esc) as [-> | He].
      * rewrite scan_key_cancel. apply Hnil.
      * destruct (scan_key_step E _ f He)
          as (f' & -> & _ & _ & _ & _ & _ & _ & _ & _ & r & Hout).
        eexists. split; [exact Hout |].
        repeat apply List.Forall_cons; try apply List.Forall_nil;
          cbn; auto 10.
  - cbn [fst]. rewrite internal_log. apply Hnil.
Qed.

(** X17: a run of [main] only adds to its log: the log at any later point
    is the log at an earlier one followed by new events. Every message
    added goes to one of the five addresses [/image/object_count],
    [/image/scan_object_count], [/image/scan_min_size],
    [/image/scan_avg_size], [/image/scan_max_size], and every scan window
    added is [scan_width] wide. *)
Theorem run_log_grows (E : Env) (fuel : nat) (s : State) (keys : list Z) :
  exists new,
    log_of (fst (run E fuel s keys)) = log_of s ++ new
    /\ Forall event_ok new.
Proof.
  revert s keys. induction fuel as [|n IH]; intros s keys.
  - exists []. cbn. rewrite app_nil_r. split; [reflexivity | constructor].
  - cbn [run]. destruct (step_log E s keys) as (new1 & H1 & Hok1).
    destruct (step E s keys) as [s' rest]. cbn [fst] in H1.
    destruct (IH s' rest) as (new2 & H2 & Hok2).
    exists (new1 ++ new2). rewrite H2, H1, app_assoc. split; [reflexivity |].
    apply Forall_app. split; assumption.
Qed.

Lemma enter_main_store E path d m auto log :
  exists m',
    store_of (enter_main E path d (Some m) auto log) = Some m'
    /\ scores m' = scores m /\ current_index m' = current_index m.
Proof.
  unfold enter_main. destruct (imread E path); [| exists m; auto].
  destruct (get_analysis (current_index m) m); [exists m; auto |].
  destruct (analyze_image E _ _). eexists. split; [reflexivity |]. auto.
Qed.

Lemma goto_page_store E r stay f :
  exists m,
    store_of (goto_page E r stay f) = Some m
    /\ scores m = scores (fst r) /\ current_index m = current_index (fst r).
Proof.
  unfold goto_page. destruct r as [sm' [[[path d]|]|e]]; cbn [fst];
    try (exists sm'; auto; fail).
  destruct (truthy path); [apply enter_main_store | exists sm'; auto].
Qed.

Lemma next_score_in_range m :
  scores (fst (next_score m)) = scores m
  /\ (0 <= current_index m < len_scores m ->
      0 <= current_index (fst (next_score m)) < len_scores m).
Proof.
  split; [apply next_score_scores |]. intros Hi.
  destruct (scores m) eqn:Hs.
  - rewrite next_score_empty by assumption. exact Hi.
  - rewrite next_score_index by congruence. apply Z.mod_pos_bound. lia.
Qed.

Lemma previous_score_in_range m :
  scores (fst (previous_score m)) = scores m
  /\ (0 <= current_index m < len_scores m ->
      0 <= current_index (fst (previous_score m)) < len_scores m).
Proof.
  split; [apply previous_score_scores |]. intros Hi.
  destruct (scores m) eqn:Hs.
  - rewrite previous_score_empty by assumption. exact Hi.
  - rewrite previous_score_index by congruence. apply Z.mod_pos_bound. lia.
Qed.

(** The pages of [m] with a cursor that is in range if that of [m] is. *)
Lemma keeps_pages_refl m :
  exists m', Some m = Some m' /\ scores m' = scores m
             /\ (0 <= current_index m < len_scores m ->
                 0 <= current_index m' < len_scores m).
Proof. exists m. auto. Qed.

Lemma step_store E s keys :
  match store_of s with
  | Some m =>
    exists m',
      store_of (fst (step E s keys)) = Some m' /\ scores m' = scores m
      /\ (0 <= current_index m < len_scores m ->
          0 <= current_index m' < len_scores m)
  | None => store_of (fst (step E s keys)) = None
  end.
Proof.
  destruct s as [f | sm l | e sm l]; cbn [store_of step fst];
    try (destruct sm as [m|]; [apply keeps_pages_refl | reflexivity]).
  assert (Hnav : forall m r stay,
             scores (fst r) = scores m
             /\ (0 <= current_index m < len_scores m ->
                 0 <= current_index (fst r) < len_scores m) ->
             exists m',
               store_of (goto_page E r stay f) = Some m'
               /\ scores m' = scores m
               /\ (0 <= current_index m < len_scores m ->
                   0 <= current_index m' < len_scores m)).
  { intros m r stay [Hs Hi].
    destruct (goto_page_store E r stay f) as (m' & -> & Hs' & Hi').
    exists m'. split; [reflexivity |]. split; [congruence |].
    rewrite Hi'. exact Hi. }
  destruct (awaits_key f).
  - destruct keys as [|raw rest]; cbn [fst store_of].
    { destruct (score_manager f); [apply keeps_pages_refl | reflexivity]. }
    unfold on_key. destruct (pc f).
    + unfold display_key. destruct (_ =? key_a).
      { unfold static_analysis. destruct (score_manager f) as [m|] eqn:Hm.
        - unfold analyze_all_pages.
          destruct (analyze_pages_scores E (scores m) 0 m) as [Hs Hi].
          destruct (analyze_pages_from E 0 (scores m) m) as [m' [[]|e]];
            cbn [fst] in Hs, Hi.
          + destruct (get_analysis _ m'); cbn; exists m';
              (split; [reflexivity |]); split; auto; rewrite Hi; auto.
          + cbn. exists m'. split; [reflexivity |]. split; [exact Hs |].
            rewrite Hi. auto.
        - destruct (analyze_image E _ _). cbn. exact Hm. }
      destruct (_ =? key_n).
      { destruct (score_manager f) as [m|] eqn:Hm; cbn [store_of];
          [| exact Hm].
        apply (Hnav m), next_score_in_range. }
      destruct (_ =? key_p).
      { destruct (score_manager f) as [m|] eqn:Hm; cbn [store_of];
          [| exact Hm].
        apply (Hnav m), previous_score_in_range. }
      destruct (_ =? key_b).
      { cbn. destruct (score_manager f); [apply keeps_pages_refl | reflexivity]. }
      destruct (_ =? key_esc); cbn;
        (destruct (score_manager f); [apply keeps_pages_refl | reflexivity]).
    + cbn. destruct (score_manager f); [apply keeps_pages_refl | reflexivity].
    + destruct (Z.eq_dec (Z.land raw 255) key_esc) as [-> | He].
      * rewrite scan_key_cancel. cbn.
        destruct (score_manager f); [apply keeps_pages_refl | reflexivity].
      * destruct (scan_key_step E _ f He) as (f' & -> & _ & _ & Hsm & _).
        cbn. rewrite Hsm.
        destruct (score_manager f); [apply keeps_pages_refl | reflexivity].
    + cbn. destruct (score_manager f); [apply keeps_pages_refl | reflexivity].
  - cbn [fst]. unfold internal. destruct (pc f).
    + cbn. destruct (score_manager f); [apply keeps_pages_refl | reflexivity].
    + unfold scan_setup. destruct (scanning (scan f));
        [destruct (_ =? 0) |]; cbn;
        (destruct (score_manager f); [apply keeps_pages_refl | reflexivity]).
    + cbn. destruct (score_manager f); [apply keeps_pages_refl | reflexivity].
    + unfold scan_end. destruct (score_manager f) as [m|] eqn:Hm;
        [| cbn; exact Hm].
      destruct (scanning (scan f) && has_next_score m).
      * apply (Hnav m), next_score_in_range.
      * cbn. rewrite Hm. apply keeps_pages_refl.
Qed.

(** X18: [main] never adds or removes a page. Whatever keys are read, the
    score manager held at any later point has the page sequence it had, a
    cursor that was in range is still in range, so that
    [get_current_score] cannot raise there, and a call of [main] without a
    score manager never gets one. *)
Theorem run_keeps_pages (E : Env) (fuel : nat) (s : State) (keys : list Z) :
  match store_of s with
  | Some m =>
    exists m',
      store_of (fst (run E fuel s keys)) = Some m' /\ scores m' = scores m
      /\ (0 <= current_index m < len_scores m ->
          0 <= current_index m' < len_scores m'
          /\ exists p, get_current_score m' = Ok (Some p))
  | None => store_of (fst (run E fuel s keys)) = None
  end.
Proof.
  revert s keys. induction fuel as [|n IH]; intros s keys.
  - cbn [run fst]. destruct (store_of s) as [m|]; [| reflexivity].
    exists m. split; [reflexivity |]. split; [reflexivity |].
    intros Hi. split; [exact Hi |].
    destruct (getitem_in_range (scores m) _ Hi) as (p & Hp & _).
    exists p. unfold get_current_score. rewrite Hp.
    unfold len_scores in Hi. destruct (scores m); [simpl in Hi; lia | reflexivity].
  - cbn [run]. pose proof (step_store E s keys) as Hstep.
    destruct (step E s keys) as [s1 rest]. cbn [fst] in Hstep.
    specialize (IH s1 rest).
    destruct (store_of s) as [m|].
    + destruct Hstep as (m1 & Hm1 & Hs1 & Hi1). rewrite Hm1 in IH.
      destruct IH as (m' & Hm' & Hs' & Hi').
      exists m'. split; [exact Hm' |]. split; [congruence |].
      intros Hi. apply Hi'. unfold len_scores in *. rewrite Hs1. auto.
    + rewrite Hstep in IH. exact IH.
Qed.

Lemma run_keeps_pages_witness :
  exists m',
    store_of (fst (run sample_env 8 sample_start [110; 110; 97; 112; 98; 27]))
    = Some m'
    /\ scores m' = scores two_pages
    /\ exists p, get_current_score m' = Ok (Some p).
Proof.
  pose proof (run_keeps_pages sample_env 8 sample_start
                [110; 110; 97; 112; 98; 27]) as H.
  change (store_of sample_start) with (store_of (Running sample_frame)) in H.
  destruct (store_of (Running sample_frame)) as [m|] eqn:Hm;
    [| discriminate Hm].
  assert (Hs : scores m = scores two_pages /\ current_index m = 0).
  { injection Hm as <-. split; reflexivity. }
  destruct Hs as [Hs Hc].
  destruct H as (m' & Hm' & Hs' & Hi).
  exists m'. split; [exact Hm' |]. split; [congruence |].
  apply Hi. unfold len_scores. rewrite Hs, Hc. cbn. lia.
Defined.

(** X19: keys ['n'] and ['p'] in the display loop, with a score manager
    whose next (or previous) page has a non-empty path: the cursor moves
    cyclically, from the last page to the first for ['n'], and [main] is
    entered anew on that page, in the display loop, with the duration of
    that page, the offset 0 and the forward direction, whatever the
    direction was, and with the log as it was. When the file of that page
    cannot be read, [main] returns instead, the cursor already moved. *)
Theorem display_navigation (E : Env) (f : Frame) (sm : ScoreManager)
  (raw : Z) (keys : list Z)
  (nav : ScoreManager -> ScoreManager * result (option (string * Q)))
  (path : string) (d : Q) :
  pc f = Display -> score_manager f = Some sm ->
  (Z.land raw 255 = key_n /\ nav = next_score)
  \/ (Z.land raw 255 = key_p /\ nav = previous_score) ->
  snd (nav sm) = Ok (Some (path, d)) -> truthy path = true ->
  (imread E path = None ->
   step E (Running f) (raw :: keys)
   = (Returned (Some (fst (nav sm))) (out f), keys))
  /\ (forall img, imread E path = Some img ->
      exists f' sm',
        step E (Running f) (raw :: keys) = (Running f', keys)
        /\ pc f' = Display /\ score_manager f' = Some sm'
        /\ scores sm' = scores sm
        /\ current_index sm' = current_index (fst (nav sm))
        /\ current_page (page f') = current_index sm'
        /\ duration (page f') = d
        /\ scan f' = {| reverse_scan := false; current_position := 0;
                        scanning := false; num_steps := 0;
                        step_duration := 0 |}
        /\ out f' = out f)
  /\ (nav = next_score -> current_index sm = len_scores sm - 1 ->
      current_index (fst (nav sm)) = 0 /\ has_next_score sm = false).
Proof.
  intros Hpc Hsm Hkey Hret Htruthy.
  assert (Hne : scores sm <> []).
  { intros Hnil. destruct Hkey as [[_ ->] | [_ ->]].
    - rewrite next_score_empty in Hret by assumption. discriminate Hret.
    - rewrite previous_score_empty in Hret by assumption. discriminate Hret. }
  assert (Hscores : scores (fst (nav sm)) = scores sm).
  { destruct Hkey as [[_ ->] | [_ ->]];
      [apply next_score_scores | apply previous_score_scores]. }
  assert (Hstep : step E (Running f) (raw :: keys)
                  = (enter_main E path d (Some (fst (nav sm))) (auto_play f)
                       (out f), keys)).
  { unfold step, awaits_key, on_key. rewrite Hpc. f_equal.
    unfold display_key.
    destruct Hkey as [[-> ->] | [-> ->]]; cbn [Z.eqb key_a key_n key_p Pos.eqb];
      rewrite Hsm; unfold goto_page.
    - destruct (next_score sm) as [sm1 res]. cbn [fst snd] in *.
      rewrite Hret, Htruthy. reflexivity.
    - destruct (previous_score sm) as [sm1 res]. cbn [fst snd] in *.
      rewrite Hret, Htruthy. reflexivity. }
  rewrite Hstep. split; [| split].
  - intros Hread. unfold enter_main. rewrite Hread. reflexivity.
  - intros img Hread.
    destruct (enter_main_loads E path d (Some (fst (nav sm))) (auto_play f)
                (out f) img Hread) as [f' Hf'].
    pose proof (enter_main_running _ _ _ _ _ _ _ Hf')
      as (Hpc' & Hscan' & Hd & Hlog & Hm).
    destruct (Hm _ eq_refl) as (Hpage & sm' & Hsm' & Hs' & Hidx).
    exists f', sm'. rewrite Hf'. split; [reflexivity |].
    repeat (split; [congruence |]). congruence.
  - intros -> Hlast. split.
    + rewrite next_score_index by assumption. rewrite Hlast.
      replace (len_scores sm - 1 + 1) with (1 * len_scores sm) by lia.
      apply Z_mod_mult.
    + unfold has_next_score. apply andb_false_iff. right. lia.
Qed.

Lemma display_navigation_witness :
  let f := frame_of sample_frame
             (fst (run sample_env 1 (Running sample_frame) [110])) in
  exists f' sm',
    step sample_env (Running f) [110] = (Running f', [])
    /\ pc f' = Display /\ score_manager f' = Some sm'
    /\ current_index sm' = 0.
Proof.
  intros f.
  destruct (score_manager f) as [sm|] eqn:Hsm; [| discriminate Hsm].
  assert (Hs : scores sm = scores two_pages /\ current_index sm = 1).
  { injection Hsm as <-. split; reflexivity. }
  destruct Hs as [Hs Hc].
  assert (Hret : snd (next_score sm) = Ok (Some ("a.png"%string, 10%Q))).
  { unfold next_score, get_current_score, len_scores.
    cbn [scores set_current_index current_index]. rewrite Hs, Hc.
    reflexivity. }
  destruct (display_navigation sample_env f sm 110 [] next_score "a.png" 10
              eq_refl Hsm (or_introl (conj eq_refl eq_refl)) Hret eq_refl)
    as (_ & Hok & Hwrap).
  destruct (Hok (blank 10 10) eq_refl)
    as (f' & sm' & Hstep & Hpc & Hsm' & _ & Hidx & _).
  exists f', sm'. repeat (split; [assumption |]).
  rewrite Hidx. apply Hwrap; [reflexivity |].
  unfold len_scores. rewrite Hs, Hc. reflexivity.
Defined.

Lemma q_sum_fold_right (l : list Q) :
  forall a, (fold_left Qplus l a == a + fold_right Qplus 0 l)%Q.
Proof.
  induction l as [|y l IH]; intros a; cbn [fold_left fold_right].
  - lra.
  - rewrite IH. lra.
Qed.

Lemma np_mean_is_mean (x : Q) (l : list Q) :
  exists av,
    np_mean (x :: l) = Fin av
    /\ (av * inject_Z (Z.of_nat (length (x :: l)))
        == fold_right Qplus 0 (x :: l))%Q.
Proof.
  eexists. split; [reflexivity |].
  pose proof (length_cons_pos x l) as Hpos.
  rewrite Qmult_comm, Qmult_div_r.
  - unfold q_sum. rewrite q_sum_fold_right. lra.
  - intros H0. rewrite H0 in Hpos. discriminate Hpos.
Qed.

(** X20: a turn of the inner loop that is not cancelled analyses the
    window of the original image, not of the image with the keypoints
    drawn: it logs the outline of the window and then sends, in this
    order, the number of keypoints SIFT finds in that window and three
    statistics of their sizes. With no keypoint in the window the three
    are the int [0]. Otherwise the first and the third are sizes of
    keypoints of the window that bound the size of each of them, and the
    second is their mean: multiplied by their number it gives the sum of
    the sizes. *)
Theorem scan_turn_sends (E : Env) (f : Frame) (raw : Z) (keys : list Z) :
  pc f = ScanLoop -> in_scan f = true -> Z.land raw 255 <> key_esc ->
  let x := current_position (scan f) in
  let window := col_slice (image (page f)) x (x + scan_width) in
  let szs := map size (detectAndCompute E window) in
  exists f' mn av mx,
    step E (Running f) (raw :: keys) = (Running f', keys)
    /\ out f'
       = out f
         ++ [Rectangle x (x + scan_width);
             SendMessage "/image/scan_object_count"
               (Int (Z.of_nat (length szs)));
             SendMessage "/image/scan_min_size" mn;
             SendMessage "/image/scan_avg_size" av;
             SendMessage "/image/scan_max_size" mx]
    /\ match szs with
       | [] => mn = Int 0 /\ av = Int 0 /\ mx = Int 0
       | _ :: _ =>
         exists qmn qav qmx,
           mn = Float (Fin qmn) /\ av = Float (Fin qav)
           /\ mx = Float (Fin qmx)
           /\ In qmn szs /\ In qmx szs
           /\ Forall (fun s => (qmn <= s)%Q /\ (s <= qmx)%Q) szs
           /\ (qav * inject_Z (Z.of_nat (length szs))
               == fold_right Qplus 0 szs)%Q
       end
    /\ page f' = page f /\ score_manager f' = score_manager f.
Proof.
  intros Hpc Hin He x window szs.
  rewrite (scan_turn E f raw keys Hpc Hin).
  unfold scan_key. replace (Z.land raw 255 =? key_esc) with false by lia.
  fold x window. unfold analyze_image.
  cbn [out emit set_scan page score_manager object_count min_size avg_size
       max_size].
  fold szs. rewrite <- (length_map size).  fold szs.
  eexists _, _, _, _. split; [reflexivity |]. split; [reflexivity |].
  split; [| split; reflexivity].
  destruct szs as [|s0 l]; [auto |].
  destruct (np_mean_is_mean s0 l) as (qav & Hav & Hmean).
  exists (py_min s0 l), qav, (py_max s0 l).
  split; [reflexivity |]. split; [rewrite Hav; reflexivity |].
  split; [reflexivity |].
  split; [apply py_min_in |]. split; [apply py_max_in |].
  split; [| exact Hmean].
  destruct (py_min_le l s0) as [Hm1 Hm2].
  destruct (py_max_ge l s0) as [HM1 HM2].
  constructor; [split; assumption |].
  apply List.Forall_forall. intros s Hs.
  rewrite List.Forall_forall in Hm2, HM2. split; auto.
Qed.

Lemma scan_turn_sends_witness :
  let f := frame_of sample_frame
             (fst (run sample_env 2 (Running sample_frame) [98])) in
  exists f' mn av mx,
    step sample_env (Running f) [-1] = (Running f', [])
    /\ out f'
       = [Rectangle 0 60;
          SendMessage "/image/scan_object_count" (Int 2);
          SendMessage "/image/scan_min_size" mn;
          SendMessage "/image/scan_avg_size" av;
          SendMessage "/image/scan_max_size" mx]
    /\ exists qmn qav qmx,
         mn = Float (Fin qmn) /\ av = Float (Fin qav)
         /\ mx = Float (Fin qmx)
         /\ (qav * 2 == 2 + (5 + 0))%Q.
Proof.
  intros f.
  destruct (scan_turn_sends sample_env f (-1) [] eq_refl eq_refl)
    as (f' & mn & av & mx & Hstep & Hout & Hstat & _).
  { vm_compute. intros H. discriminate H. }
  exists f', mn, av, mx. split; [exact Hstep |]. split; [exact Hout |].
  change (map size
            (detectAndCompute sample_env
               (col_slice (image (page f)) (current_position (scan f))
                  (current_position (scan f) + scan_width))))
    with [2%Q; 5%Q] in Hstat.
  destruct Hstat as (qmn & qav & qmx & H1 & H2 & H3 & _ & _ & _ & Hmean).
  exists qmn, qav, qmx. repeat (split; [assumption |]).
  exact Hmean.
Defined.
